(** * urusai: the crawl engine of crawler/crawler.go

    A shallow embedding of the crawler (fetch, extractLinks, normalize,
    accept, depthFirst, isTimeoutReached, Crawl) as functions in a
    state-and-panic monad, over interfaces for the three libraries the
    crawler calls: net/url, golang.org/x/net/html and net/http.

    Conventions.
    - A Go [string] is a [string] (a sequence of bytes), a [[]byte] is a
      [list byte], a [map[string]struct{}] is a [gset string].
    - A Go [int] and a [time.Duration] are 64-bit signed integers: values
      are [Z], and every arithmetic operation of the source is followed by
      [wrap64].
    - Time is a clock in nanoseconds that advances only while the program
      waits: during a network round trip and during [time.Sleep]. *)

From Stdlib Require Import ZArith String Ascii List Lia Bool Permutation.
From Stdlib.Strings Require Import Byte.
From stdpp Require Import gmap strings list.

Open Scope string_scope.
Open Scope list_scope.
Open Scope Z_scope.

(** ** Machine integers *)

Definition minInt64 : Z := - 2 ^ 63.
Definition maxInt64 : Z := 2 ^ 63 - 1.

(** Two's complement wrap-around of a 64-bit signed operation. *)
Definition wrap64 (z : Z) : Z := (z + 2 ^ 63) mod 2 ^ 64 - 2 ^ 63.

(** Saturation, as [time.Time.Sub] does for a difference out of range. *)
Definition sat64 (z : Z) : Z := Z.max minInt64 (Z.min maxInt64 z).

Definition is_int64 (z : Z) : Prop := minInt64 <= z <= maxInt64.

Definition len {A} (l : list A) : Z := Z.of_nat (length l).

(** time.Microsecond and time.Second, in nanoseconds. *)
Definition Microsecond : Z := 1000.
Definition Second : Z := 1000000000.

(** ** Package strings *)

(** strings.HasPrefix(s, prefix) *)
Definition HasPrefix (s pre : string) : bool := String.prefix pre s.

(** strings.Contains(s, substr): [substr] occurs in [s] at some position. *)
Fixpoint Contains (s substr : string) : bool :=
  String.prefix substr s ||
  match s with
  | EmptyString => false
  | String _ s' => Contains s' substr
  end.

(** ** Configuration *)

(** Modelled from the spec: the struct config.Config of package config,
    which is not among the sources; the fields are those the crawler reads
    through [c.cfg], with the types of the spec's configuration table. *)
Record Config := {
  RootURLs : list string;
  UserAgents : list string;
  BlacklistedURLs : list string;
  MaxDepth : Z;
  Timeout : Z;
  MinSleep : Z;
  MaxSleep : Z
}.

(** ** Library interfaces *)

(** net/url.URL *)
Record URL := {
  Scheme : string;
  Opaque : string;
  User : option string;
  Host : string;
  Path : string;
  RawPath : string;
  OmitHost : bool;
  ForceQuery : bool;
  RawQuery : string;
  Fragment : string;
  RawFragment : string
}.

(** The functions of net/url the crawler calls.  A parse function returns
    [None] for a non-nil error.  [ResolveReference] takes its receiver as
    an [option]: [None] is the nil pointer, and a [None] result is the
    nil-pointer panic; with a non-nil receiver it always returns. *)
Class NetURL := {
  url_Parse : string -> option URL;
  url_ParseRequestURI : string -> option URL;
  ResolveReference : option URL -> URL -> option URL;
  URL_String : URL -> string;
  ResolveReference_nonnil :
    forall (b ref : URL), is_Some (ResolveReference (Some b) ref)
}.

(** golang.org/x/net/html: token types, attributes and tokens. *)
Inductive TokenType :=
| ErrorToken | TextToken | StartTagToken | EndTagToken
| SelfClosingTagToken | CommentToken | DoctypeToken.

Record Attribute := { Namespace : string; Key : string; Val : string }.

Record Token := {
  Type_ : TokenType;
  DataAtom : Z;
  Data : string;
  Attr : list Attribute
}.

(** atom.A *)
Definition atom_A : Z := 1.

(** The tokenizer: [Next] scans the next token and returns its type with
    the advanced tokenizer, [Token] returns the current token.  On a finite
    input the tokenizer reaches [ErrorToken] (end of input, or the first
    point it cannot read past): [Tokenizer_left] bounds the number of
    tokens still to come. *)
Class HTML := {
  Tokenizer : Type;
  NewTokenizer : list Byte.byte -> Tokenizer;
  Tokenizer_Next : Tokenizer -> TokenType * Tokenizer;
  Tokenizer_Token : Tokenizer -> Token;
  Tokenizer_left : Tokenizer -> nat;
  Tokenizer_progress :
    forall z, fst (Tokenizer_Next z) <> ErrorToken ->
              (Tokenizer_left (snd (Tokenizer_Next z)) < Tokenizer_left z)%nat
}.

(** A context.Context: the instant at which it is cancelled (by a deadline
    or a signal), if any.  Once cancelled it stays cancelled. *)
Record Context := { doneAt : option Z }.

(** net/http.  The three ways a GET can fail. *)
Inductive FetchError :=
| ErrRequest     (* http.NewRequestWithContext failed *)
| ErrTransport   (* connection or transport failure, client timeout *)
| ErrContext.    (* the context was cancelled during the call *)

(** A response: status code and body.  Reading the body delivers
    [BodyData] and then ends with io.EOF ([BodyErr = None]) or with an
    error. *)
Record Response := {
  StatusCode : Z;
  BodyData : list Byte.byte;
  BodyErr : option FetchError
}.

(** [NewRequest raw] is http.NewRequestWithContext(ctx, "GET", raw, nil),
    [None] for an error.  [client_Do ctx req ua t] is the round trip of
    the request [req], bound to [ctx], with User-Agent [ua], started at
    time [t]: the error or the response, and the time the call took. *)
Class HTTP := {
  NewRequest : string -> option string;
  client_Do : Context -> string -> string -> Z -> (FetchError + Response) * Z
}.

(** ** State *)

(** Which call site a fetch comes from: line 65 (the root of the outer
    loop) or line 170 (a link dequeued by the walk). *)
Inductive Site := Root | Walk.

(** Observable effects: a call of [fetch] (URL, time of the call, whether
    it returned a nil error) and a [time.Sleep]. *)
Inductive Event :=
| EvFetch (site : Site) (url : string) (t : Z) (ok : bool)
| EvSleep (d : Z).

(** The fields of the Crawler struct ([rand] is the stream of raw values
    the generator will deliver, zeros once it is used up; [client] is
    constant and lives in [HTTP]), then the world: the clock and the log of
    effects, oldest first. *)
Record State := {
  rand : list Z;
  startTime : Z;
  links : list string;
  visited : gset string;
  clock : Z;
  events : list Event
}.

Definition set_rand (r : list Z) (s : State) : State :=
  {| rand := r; startTime := startTime s; links := links s;
     visited := visited s; clock := clock s; events := events s |}.
Definition set_startTime (t : Z) (s : State) : State :=
  {| rand := rand s; startTime := t; links := links s;
     visited := visited s; clock := clock s; events := events s |}.
Definition set_links (l : list string) (s : State) : State :=
  {| rand := rand s; startTime := startTime s; links := l;
     visited := visited s; clock := clock s; events := events s |}.
Definition set_visited (v : gset string) (s : State) : State :=
  {| rand := rand s; startTime := startTime s; links := links s;
     visited := v; clock := clock s; events := events s |}.
Definition set_clock (t : Z) (s : State) : State :=
  {| rand := rand s; startTime := startTime s; links := links s;
     visited := visited s; clock := t; events := events s |}.
Definition add_event (e : Event) (s : State) : State :=
  {| rand := rand s; startTime := startTime s; links := links s;
     visited := visited s; clock := clock s; events := events s ++ [e] |}.

(** ** The monad: state, panic, and fuel *)

(** [Done a s]: returned [a] in state [s].  [Panic s]: a run-time panic in
    state [s].  [More s]: the loop had not returned when the fuel ran
    out. *)
Inductive outcome (A : Type) :=
| Done (a : A) (s : State)
| Panic (s : State)
| More (s : State).
Arguments Done {A} a s.
Arguments Panic {A} s.
Arguments More {A} s.

Definition M (A : Type) : Type := State -> outcome A.

Definition final {A} (o : outcome A) : State :=
  match o with Done _ s | Panic s | More s => s end.

Definition is_done {A} (o : outcome A) : bool :=
  match o with Done _ _ => true | _ => false end.

#[global] Instance M_ret : MRet M := fun A a s => Done a s.
#[global] Instance M_bind : MBind M := fun A B f m s =>
  match m s with
  | Done a s' => f a s'
  | Panic s' => Panic s'
  | More s' => More s'
  end.

Definition modify (f : State -> State) : M unit := fun s => Done tt (f s).
Definition panic {A} : M A := fun s => Panic s.
Definition more {A} : M A := fun s => More s.
Definition gets {A} (f : State -> A) : M A := fun s => Done (f s) s.

(** ** The crawler *)

Section Crawler.
Context {neturl : NetURL} {html : HTML} {http : HTTP}.
Variable cfg : Config.

(** [ctx.Err() != nil] *)
Definition ctx_Err (ctx : Context) (s : State) : bool :=
  match doneAt ctx with
  | Some d => d <=? clock s
  | None => false
  end.

(** isTimeoutReached (lines 184-189) *)
Definition isTimeoutReached (s : State) : bool :=
  if Timeout cfg =? 0 then false
  else wrap64 (Timeout cfg * Second) <? sat64 (clock s - startTime s).

(** c.rand.Intn(n): panics unless [0 < n], else a value in [0, n). *)
Definition Intn (n : Z) : M Z := fun s =>
  if n <=? 0 then Panic s
  else match rand s with
       | [] => Done 0 s
       | r :: rest => Done (r mod n) (set_rand rest s)
       end.

(** l[i] for an index in range *)
Definition index (l : list string) (i : Z) : string :=
  nth (Z.to_nat i) l "".

(** time.Sleep(d): a non-positive duration returns at once. *)
Definition time_Sleep (d : Z) : M unit :=
  modify (fun s => set_clock (clock s + Z.max 0 d) (add_event (EvSleep d) s)).

(** io.ReadAll(io.LimitReader(resp.Body, n)): at most [n] bytes are read;
    once [n] bytes are read the limited reader reports end of input
    without reading further. *)
Definition ReadAll_Limit (n : Z) (resp : Response)
  : list Byte.byte * option FetchError :=
  if n <=? len (BodyData resp)
  then (take (Z.to_nat n) (BodyData resp), None)
  else (BodyData resp, BodyErr resp).

(** fetch (lines 81-96).  [site] only labels the logged event. *)
Definition fetch (site : Site) (ctx : Context) (raw : string)
  : M (list Byte.byte * option FetchError) :=
  t ← gets clock;
  match NewRequest raw with
  | None =>
      modify (add_event (EvFetch site raw t false));;
      mret ([], Some ErrRequest)
  | Some req =>
      i ← Intn (len (UserAgents cfg));
      let ua := index (UserAgents cfg) i in
      let '(r, d) := client_Do ctx req ua t in
      modify (set_clock (t + Z.max 0 d));;
      match r with
      | inl err =>
          modify (add_event (EvFetch site raw t false));;
          mret ([], Some err)
      | inr resp =>
          let '(body, err) := ReadAll_Limit (Z.shiftl 1 20) resp in
          modify (add_event (EvFetch site raw t
                               (match err with None => true | _ => false end)));;
          mret (body, err)
      end
  end.

(** normalize (lines 128-137).  [base] is a pointer: [None] is nil. *)
Definition normalize (href : string) (base : option URL) : M string :=
  if HasPrefix href "//" then
    match base with
    | None => panic
    | Some b => mret (Scheme b +:+ ":" +:+ href)
    end
  else
    match url_Parse href with
    | None => mret ""
    | Some ref =>
        match ResolveReference base ref with
        | None => panic
        | Some u => mret (URL_String u)
        end
    end.

(** accept (lines 140-154) *)
Definition accept (link : string) (s : State) : bool :=
  if String.eqb link "" then false
  else if bool_decide (link ∈ visited s) then false
  else if existsb (Contains link) (BlacklistedURLs cfg) then false
  else match url_ParseRequestURI link with
       | Some _ => true
       | None => false
       end.

(** The loop over [t.Attr] (lines 114-122). *)
Fixpoint collectHrefs (attrs : list Attribute) (base : option URL)
         (out : list string) : M (list string) :=
  match attrs with
  | [] => mret out
  | a :: rest =>
      if negb (String.eqb (Key a) "href") then collectHrefs rest base out
      else
        href ← normalize (Val a) base;
        ok ← gets (accept href);
        collectHrefs rest base (if ok : bool then out ++ [href] else out)
  end.

(** The loop of extractLinks (lines 105-124). *)
Fixpoint tokenLoop (fuel : nat) (z : Tokenizer) (base : option URL)
         (out : list string) : M (list string) :=
  match fuel with
  | O => more
  | S fuel' =>
      let '(ty, z') := Tokenizer_Next z in
      match ty with
      | ErrorToken => mret out
      | StartTagToken =>
          let t := Tokenizer_Token z' in
          if negb (DataAtom t =? atom_A) then tokenLoop fuel' z' base out
          else
            out' ← collectHrefs (Attr t) base out;
            tokenLoop fuel' z' base out'
      | _ => tokenLoop fuel' z' base out
      end
  end.

(** extractLinks (lines 100-125) *)
Definition extractLinks (body : list Byte.byte) (base : string)
  : M (list string) :=
  let z := NewTokenizer body in
  let baseURL := url_Parse base in
  tokenLoop (S (Tokenizer_left z)) z baseURL [].

(** The jitter sleep (lines 178-179). *)
Definition jitter : M unit :=
  r ← Intn (wrap64 (wrap64 (MaxSleep cfg - MinSleep cfg) + 1));
  time_Sleep (wrap64 (wrap64 (r + MinSleep cfg) * Microsecond)).

(** depthFirst (lines 157-182).  [fuel] bounds the recursive calls;
    [depth + 1] cannot overflow, since [depth < MaxDepth]. *)
Fixpoint depthFirst_fuel (fuel : nat) (ctx : Context) (depth : Z)
  : M unit := fun s =>
  if (MaxDepth cfg <=? depth) || ctx_Err ctx s || isTimeoutReached s
  then Done tt s
  else if len (links s) =? 0 then Done tt s
  else
    (idx ← Intn (len (links s));
     let target := index (links s) idx in
     modify (set_links (delete (Z.to_nat idx) (links s)));;
     modify (fun s => set_visited ({[target]} ∪ visited s) s);;
     '(body, err) ← fetch Walk ctx target;
     match err with
     | Some _ => mret tt
     | None =>
         out ← extractLinks body target;
         modify (fun s => set_links (links s ++ out) s);;
         jitter;;
         match fuel with
         | O => more
         | S fuel' => depthFirst_fuel fuel' ctx (depth + 1)
         end
     end) s.

Definition depthFirst (ctx : Context) (depth : Z) : M unit :=
  depthFirst_fuel (Z.to_nat (MaxDepth cfg - depth)) ctx depth.

(** The loop of Crawl (lines 59-77); [fuel] bounds its iterations. *)
Fixpoint Crawl_loop (fuel : nat) (ctx : Context) : M unit := fun s =>
  match fuel with
  | O => More s
  | S fuel' =>
      if ctx_Err ctx s || isTimeoutReached s then Done tt s
      else
        (i ← Intn (len (RootURLs cfg));
         let root := index (RootURLs cfg) i in
         '(body, err) ← fetch Root ctx root;
         match err with
         | Some _ => Crawl_loop fuel' ctx
         | None =>
             out ← extractLinks body root;
             modify (set_links out);;
             if len out =? 0 then Crawl_loop fuel' ctx
             else depthFirst ctx 0;; Crawl_loop fuel' ctx
         end) s
  end.

(** Crawl (lines 56-78) *)
Definition Crawl (fuel : nat) (ctx : Context) : M unit :=
  modify (fun s => set_startTime (clock s) s);;
  Crawl_loop fuel ctx.

End Crawler.

(** NewCrawler (lines 43-50): a fresh instance; [seed] is the stream the
    generator seeded from the clock will deliver. *)
Definition NewCrawler (seed : list Z) (now : Z) : State :=
  {| rand := seed; startTime := 0; links := []; visited := ∅;
     clock := now; events := [] |}.

(** ** Reference instances of the libraries

    The crawler is verified against the interfaces above, for every
    instance of them.  The libraries themselves are not among the sources
    of the repository; the instances below are executable stand-ins that
    follow their documented behaviour on simple inputs, and serve to run
    the crawler on concrete pages.  They are deliberately small:
    - [Ref.RefURL] follows net/url on URLs written with letters, digits and
      the characters [- . _ ~ / :] only (no query, fragment, user
      information, brackets or percent-escapes); any other string is
      reported as a parse error, which is coarser than the library;
    - [Ref.RefHTML] reads text, end tags and start tags whose attribute
      values are unquoted or double-quoted and hold no [>]; an unfinished
      tag at the end of the input is the first unreadable point;
    - [Ref.StaticWeb] serves a fixed table of pages. *)

Module Ref.

Definition isLetter (c : ascii) : bool :=
  let n := N_of_ascii c in
  ((97 <=? n) && (n <=? 122) || (65 <=? n) && (n <=? 90))%N.

Definition isDigit (c : ascii) : bool :=
  let n := N_of_ascii c in ((48 <=? n) && (n <=? 57))%N.

Definition isSpace (c : ascii) : bool :=
  let n := N_of_ascii c in
  ((n =? 32) || (n =? 9) || (n =? 10) || (n =? 12) || (n =? 13))%N.

Definition lower (c : ascii) : ascii :=
  let n := N_of_ascii c in
  if ((65 <=? n) && (n <=? 90))%N then ascii_of_N (n + 32) else c.

Fixpoint ToLower (s : string) : string :=
  match s with
  | EmptyString => EmptyString
  | String c r => String (lower c) (ToLower r)
  end.

Fixpoint inStr (c : ascii) (s : string) : bool :=
  match s with
  | EmptyString => false
  | String d r => Ascii.eqb c d || inStr c r
  end.

Fixpoint allb (p : ascii -> bool) (s : string) : bool :=
  match s with
  | EmptyString => true
  | String c r => p c && allb p r
  end.

Definition plainChar (c : ascii) : bool :=
  isLetter c || isDigit c || inStr c "-._~/:".

(** strings.Cut(s, sep) for a one-byte separator *)
Fixpoint Cut (s : string) (sep : ascii) : string * string * bool :=
  match s with
  | EmptyString => (EmptyString, EmptyString, false)
  | String c r =>
      if Ascii.eqb c sep then (EmptyString, r, true)
      else let '(b, a, f) := Cut r sep in (String c b, a, f)
  end.

(** strings.Split(s, sep) for a one-byte separator *)
Fixpoint Split (s : string) (sep : ascii) : list string :=
  match s with
  | EmptyString => [EmptyString]
  | String c r =>
      if Ascii.eqb c sep then EmptyString :: Split r sep
      else match Split r sep with
           | h :: t => String c h :: t
           | [] => [String c EmptyString]
           end
  end.

(** s[:strings.LastIndexByte(s, sep)], [None] when [sep] is absent *)
Fixpoint beforeLast (sep : ascii) (s : string) : option string :=
  match s with
  | EmptyString => None
  | String c r =>
      match beforeLast sep r with
      | Some p => Some (String c p)
      | None => if Ascii.eqb c sep then Some EmptyString else None
      end
  end.

(** s[strings.LastIndexByte(s, sep)+1:], [None] when [sep] is absent *)
Fixpoint afterLast (sep : ascii) (s : string) : option string :=
  match s with
  | EmptyString => None
  | String c r =>
      match afterLast sep r with
      | Some p => Some p
      | None => if Ascii.eqb c sep then Some r else None
      end
  end.

Definition emptyURL : URL :=
  {| Scheme := ""; Opaque := ""; User := None; Host := ""; Path := "";
     RawPath := ""; OmitHost := false; ForceQuery := false;
     RawQuery := ""; Fragment := ""; RawFragment := "" |}.

(** getScheme: the scan of the leading "scheme:"; the outer [None] is the
    error "missing protocol scheme", the inner [None] is "no scheme". *)
Fixpoint scanScheme (first : bool) (s : string)
  : option (option (string * string)) :=
  match s with
  | EmptyString => Some None
  | String c r =>
      let continue :=
        match scanScheme false r with
        | Some (Some (sch, rest)) => Some (Some (String c sch, rest))
        | x => x
        end in
      if isLetter c then continue
      else if isDigit c || inStr c "+-." then
        if first then Some None else continue
      else if Ascii.eqb c ":" then
        if first then None else Some (Some (EmptyString, r))
      else Some None
  end.

Definition getScheme (rawURL : string) : option (string * string) :=
  match scanScheme true rawURL with
  | None => None
  | Some None => Some (EmptyString, rawURL)
  | Some (Some p) => Some p
  end.

(** parseHost without brackets and escapes: an optional port must be
    digits. *)
Definition parseHost (host : string) : option string :=
  match afterLast ":" host with
  | Some port => if allb isDigit port then Some host else None
  | None => Some host
  end.

Definition drop2 (s : string) : string :=
  match s with
  | String _ (String _ r) => r
  | _ => EmptyString
  end.

(** parse(rawURL, viaRequest) *)
Definition parse (rawURL : string) (viaRequest : bool) : option URL :=
  if negb (allb plainChar rawURL) then None
  else if String.eqb rawURL "" && viaRequest then None
  else
    match getScheme rawURL with
    | None => None
    | Some (scheme0, rest) =>
        let scheme := ToLower scheme0 in
        let hasScheme := negb (String.eqb scheme "") in
        if negb (HasPrefix rest "/") && hasScheme then
          Some {| Scheme := scheme; Opaque := rest; User := None;
                  Host := ""; Path := ""; RawPath := "";
                  OmitHost := false; ForceQuery := false;
                  RawQuery := ""; Fragment := ""; RawFragment := "" |}
        else if negb (HasPrefix rest "/") && viaRequest then None
        else if negb (HasPrefix rest "/")
                && Contains (fst (fst (Cut rest "/"))) ":" then None
        else if (hasScheme || negb viaRequest && negb (HasPrefix rest "///"))
                && HasPrefix rest "//" then
          let '(authority, after, found) := Cut (drop2 rest) "/" in
          let rest' := if found then String "/" after else EmptyString in
          match parseHost authority with
          | None => None
          | Some host =>
              Some {| Scheme := scheme; Opaque := ""; User := None;
                      Host := host; Path := rest'; RawPath := "";
                      OmitHost := false; ForceQuery := false;
                      RawQuery := ""; Fragment := ""; RawFragment := "" |}
          end
        else
          Some {| Scheme := scheme; Opaque := ""; User := None;
                  Host := ""; Path := rest; RawPath := "";
                  OmitHost := hasScheme && HasPrefix rest "/";
                  ForceQuery := false; RawQuery := ""; Fragment := "";
                  RawFragment := "" |}
    end.

(** The loop of resolvePath over the elements of the path. *)
Fixpoint resolveElems (elems : list string) (dst : string) (first : bool)
  : string * bool :=
  match elems with
  | [] => (dst, first)
  | elem :: rest =>
      if String.eqb elem "." then resolveElems rest dst false
      else if String.eqb elem ".." then
        let str := match dst with String _ r => r | _ => EmptyString end in
        match beforeLast "/" str with
        | None => resolveElems rest "/" true
        | Some p => resolveElems rest (String "/" p) first
        end
      else
        resolveElems rest
          ((if first then dst else dst ++ "/") ++ elem)%string false
  end.

(** resolvePath(base, ref) *)
Definition resolvePath (base ref : string) : string :=
  let full :=
    match ref with
    | EmptyString => base
    | String "/" _ => ref
    | _ => (match beforeLast "/" base with
            | Some p => p ++ "/"
            | None => EmptyString
            end ++ ref)%string
    end in
  if String.eqb full "" then EmptyString
  else
    let elems := Split full "/" in
    let '(dst, _) := resolveElems elems "/" true in
    let lastElem := List.last elems EmptyString in
    let dst' := if String.eqb lastElem "." || String.eqb lastElem ".."
                then (dst ++ "/")%string else dst in
    match dst' with
    | String _ (String "/" r) => String "/" r
    | _ => dst'
    end.

(** URL.ResolveReference; a nil receiver is dereferenced exactly when
    the reference has no scheme.  EscapedPath is [Path] here. *)
Definition resolveReference (u : option URL) (ref : URL) : option URL :=
  let noScheme := String.eqb (Scheme ref) "" in
  match u, noScheme with
  | None, true => None
  | _, _ =>
      let b := match u with Some b => b | None => emptyURL end in
      let sch := if noScheme then Scheme b else Scheme ref in
      if negb noScheme || negb (String.eqb (Host ref) "")
         || match User ref with Some _ => true | None => false end
      then
        Some {| Scheme := sch; Opaque := Opaque ref; User := User ref;
                Host := Host ref; Path := resolvePath (Path ref) "";
                RawPath := ""; OmitHost := OmitHost ref;
                ForceQuery := ForceQuery ref; RawQuery := RawQuery ref;
                Fragment := Fragment ref; RawFragment := RawFragment ref |}
      else if negb (String.eqb (Opaque ref) "") then
        Some {| Scheme := sch; Opaque := Opaque ref; User := None;
                Host := ""; Path := ""; RawPath := RawPath ref;
                OmitHost := OmitHost ref; ForceQuery := ForceQuery ref;
                RawQuery := RawQuery ref; Fragment := Fragment ref;
                RawFragment := RawFragment ref |}
      else
        let inherit := String.eqb (Path ref) "" && negb (ForceQuery ref)
                       && String.eqb (RawQuery ref) "" in
        let inheritFrag := inherit && String.eqb (Fragment ref) "" in
        let query := if inherit then RawQuery b else RawQuery ref in
        let frag := if inheritFrag then Fragment b else Fragment ref in
        let rawFrag :=
          if inheritFrag then RawFragment b else RawFragment ref in
        if String.eqb (Path ref) "" && negb (String.eqb (Opaque b) "") then
          Some {| Scheme := sch; Opaque := Opaque b; User := None;
                  Host := ""; Path := ""; RawPath := RawPath ref;
                  OmitHost := OmitHost ref; ForceQuery := ForceQuery ref;
                  RawQuery := query; Fragment := frag;
                  RawFragment := rawFrag |}
        else
          Some {| Scheme := sch; Opaque := Opaque ref; User := User b;
                  Host := Host b;
                  Path := resolvePath (Path b) (Path ref);
                  RawPath := ""; OmitHost := OmitHost ref;
                  ForceQuery := ForceQuery ref; RawQuery := query;
                  Fragment := frag; RawFragment := rawFrag |}
  end.

(** URL.String, for URLs without query, fragment and escapes. *)
Definition urlString (u : URL) : string :=
  let scheme := if String.eqb (Scheme u) "" then EmptyString
                else (Scheme u ++ ":")%string in
  if negb (String.eqb (Opaque u) "") then (scheme ++ Opaque u)%string
  else
    let auth :=
      if negb (String.eqb (Scheme u) "") || negb (String.eqb (Host u) "")
      then
        if OmitHost u && String.eqb (Host u) "" then EmptyString
        else
          ((if negb (String.eqb (Host u) "") || negb (String.eqb (Path u) "")
            then "//" else "") ++ Host u)%string
      else EmptyString in
    let sep :=
      match Path u with
      | String "/" _ | EmptyString => EmptyString
      | _ => if String.eqb (Host u) "" then EmptyString else "/"
      end in
    let head := (scheme ++ auth ++ sep)%string in
    let dot :=
      if String.eqb head "" && Contains (fst (fst (Cut (Path u) "/"))) ":"
      then "./" else EmptyString in
    (head ++ dot ++ Path u)%string.

Lemma resolveReference_nonnil (b ref : URL) :
  is_Some (resolveReference (Some b) ref).
Proof.
  unfold resolveReference.
  destruct (String.eqb (Scheme ref) "");
    repeat match goal with
           | |- context [if ?c then _ else _] => destruct c
           end; eauto.
Qed.

#[global] Instance RefURL : NetURL := {|
  url_Parse := fun raw => parse raw false;
  url_ParseRequestURI := fun raw => parse raw true;
  ResolveReference := resolveReference;
  URL_String := urlString;
  ResolveReference_nonnil := resolveReference_nonnil
|}.

(** *** The tokenizer *)

Record tokenizer := { input : string; current : Token }.

Definition noToken : Token :=
  {| Type_ := ErrorToken; DataAtom := 0; Data := ""; Attr := [] |}.

Definition dquote : ascii := ascii_of_N 34.

(** Split at the first [sep]: what is before it and what is after. *)
Fixpoint breakAt (sep : ascii) (s : string) : option (string * string) :=
  match s with
  | EmptyString => None
  | String c r =>
      if Ascii.eqb c sep then Some (EmptyString, r)
      else match breakAt sep r with
           | Some (b, a) => Some (String c b, a)
           | None => None
           end
  end.

(** The longest prefix whose characters satisfy [p], and the rest. *)
Fixpoint span (p : ascii -> bool) (s : string) : string * string :=
  match s with
  | EmptyString => (EmptyString, EmptyString)
  | String c r =>
      if p c then let '(b, a) := span p r in (String c b, a)
      else (EmptyString, s)
  end.

Fixpoint lastChar (s : string) : option ascii :=
  match s with
  | EmptyString => None
  | String c EmptyString => Some c
  | String _ r => lastChar r
  end.

Definition mkAttr (k v : string) : Attribute :=
  {| Namespace := ""; Key := ToLower k; Val := v |}.

(** The attributes of a tag, from the text after its name. *)
Fixpoint parseAttrs (fuel : nat) (s : string) : list Attribute :=
  match fuel with
  | O => []
  | S fuel' =>
      match snd (span isSpace s) with
      | EmptyString => []
      | String "/" r => parseAttrs fuel' r
      | s1 =>
          let '(key, r) :=
            span (fun c => negb (isSpace c || inStr c "=/")) s1 in
          match snd (span isSpace r) with
          | String "=" v0 =>
              match snd (span isSpace v0) with
              | String q v =>
                  if Ascii.eqb q dquote then
                    match breakAt dquote v with
                    | Some (val, r') =>
                        mkAttr key val :: parseAttrs fuel' r'
                    | None => [mkAttr key v]
                    end
                  else
                    let '(val, r') :=
                      span (fun c => negb (isSpace c)) (String q v) in
                    mkAttr key val :: parseAttrs fuel' r'
              | EmptyString => [mkAttr key ""]
              end
          | r1 =>
              match key with
              | EmptyString => []
              | _ => mkAttr key "" :: parseAttrs fuel' r1
              end
          end
      end
  end.

Definition tagToken (ty : TokenType) (name : string)
           (attrs : list Attribute) : Token :=
  let n := ToLower name in
  {| Type_ := ty; DataAtom := if String.eqb n "a" then atom_A else 0;
     Data := n; Attr := attrs |}.

(** Tokenizer.Next *)
Definition next (z : tokenizer) : TokenType * tokenizer :=
  match input z with
  | EmptyString => (ErrorToken, z)
  | String c r =>
      let text :=
        let '(t, after) := span (fun d => negb (Ascii.eqb d "<")) r in
        (TextToken,
         {| input := after;
            current := {| Type_ := TextToken; DataAtom := 0;
                          Data := String c t; Attr := [] |} |}) in
      if negb (Ascii.eqb c "<") then text
      else
        match r with
        | String d r' =>
            if isLetter d || Ascii.eqb d "/" then
              match breakAt ">" r with
              | None =>
                  (ErrorToken, {| input := EmptyString; current := noToken |})
              | Some (inner, after) =>
                  if Ascii.eqb d "/" then
                    (EndTagToken,
                     {| input := after;
                        current :=
                          tagToken EndTagToken
                            (fst (span (fun c => negb (isSpace c))
                                       (drop2 (String d inner)))) [] |})
                  else
                    let '(name, rest) :=
                      span (fun c => negb (isSpace c || Ascii.eqb c "/"))
                           inner in
                    let ty := match lastChar inner with
                              | Some "/"%char => SelfClosingTagToken
                              | _ => StartTagToken
                              end in
                    (ty,
                     {| input := after;
                        current :=
                          tagToken ty name
                            (parseAttrs (String.length rest) rest) |})
              end
            else text
        | EmptyString => text
        end
  end.

Lemma breakAt_shorter sep s b a :
  breakAt sep s = Some (b, a) -> (String.length a < String.length s)%nat.
Proof.
  revert b a. induction s as [|c r IH]; intros b a; simpl; [discriminate|].
  destruct (Ascii.eqb c sep).
  - intros [= <- <-]. lia.
  - destruct (breakAt sep r) as [[b' a']|] eqn:E; [|discriminate].
    intros [= <- <-]. specialize (IH _ _ eq_refl). lia.
Qed.

Lemma span_shorter p s :
  (String.length (snd (span p s)) <= String.length s)%nat.
Proof.
  induction s as [|c r IH]; simpl; [lia|].
  destruct (p c); simpl; [|lia].
  destruct (span p r) as [b a]. simpl in *. lia.
Qed.

Lemma length_String c r : String.length (String c r) = S (String.length r).
Proof. reflexivity. Qed.

Lemma next_progress z :
  fst (next z) <> ErrorToken ->
  (String.length (input (snd (next z))) < String.length (input z))%nat.
Proof.
  unfold next. destruct (input z) as [|c r];
    [intros Hn; destruct Hn; reflexivity|].
  rewrite length_String.
  pose proof (span_shorter (fun d => negb (Ascii.eqb d "<")) r) as Ht.
  destruct (span (fun d => negb (Ascii.eqb d "<")) r) as [t after].
  cbn [snd] in Ht.
  assert (Htext : (String.length after < S (String.length r))%nat) by lia.
  destruct (negb (Ascii.eqb c "<")); [intros _; exact Htext|].
  destruct r as [|d r']; [intros _; exact Htext|].
  destruct (isLetter d || Ascii.eqb d "/"); [|intros _; exact Htext].
  destruct (breakAt ">" (String d r')) as [[inner aft]|] eqn:Eb;
    [|intros Hn; destruct Hn; reflexivity].
  apply breakAt_shorter in Eb.
  destruct (Ascii.eqb d "/"); [intros _; cbn [snd input]; lia|].
  destruct (span _ inner) as [name rest].
  intros _; cbn [snd input]; lia.
Qed.

#[global] Instance RefHTML : HTML := {|
  Tokenizer := tokenizer;
  NewTokenizer := fun body =>
    {| input := string_of_list_byte body; current := noToken |};
  Tokenizer_Next := next;
  Tokenizer_Token := current;
  Tokenizer_left := fun z => String.length (input z);
  Tokenizer_progress := next_progress
|}.

(** *** A static web *)

Fixpoint lookupPage (pages : list (string * Response)) (url : string)
  : option Response :=
  match pages with
  | [] => None
  | (u, r) :: rest => if String.eqb u url then Some r else lookupPage rest url
  end.

(** Every page answers after [latency]; a URL without a page is a
    connection failure; a context cancelled before the answer arrives
    ends the call at the cancellation. *)
Definition StaticWeb (pages : list (string * Response)) (latency : Z)
  : HTTP := {|
  NewRequest := fun raw =>
    match parse raw false with Some _ => Some raw | None => None end;
  client_Do := fun ctx req ua t =>
    let answer := match lookupPage pages req with
                  | Some r => (inr r, latency)
                  | None => (inl ErrTransport, latency)
                  end in
    match doneAt ctx with
    | Some d => if d <=? t + latency then (inl ErrContext, d - t)
                else answer
    | None => answer
    end
|}.

Definition page (status : Z) (html : string) : Response :=
  {| StatusCode := status; BodyData := list_byte_of_string html;
     BodyErr := None |}.

End Ref.

(** ** Example sessions

    Small webs served by [Ref.StaticWeb] and configurations to crawl them
    with, for running the crawler on concrete inputs. *)

Module Demo.

(** A context that is never cancelled. *)
Definition never : Context := {| doneAt := None |}.

(** A fresh crawler at time 0 whose generator delivers zeros. *)
Definition fresh : State := NewCrawler [] 0.

Definition home : string := "http://r.example/home".
Definition pageX : string := "http://r.example/x".

(** One root whose page links to itself. *)
Definition webSelf : HTTP :=
  Ref.StaticWeb
    [(home, Ref.page 200 "<p>hi</p><a href=http://r.example/home>self</a>")]
    5.

(** One root whose page holds two anchors to the same page. *)
Definition webTwice : HTTP :=
  Ref.StaticWeb
    [(home, Ref.page 200 "<a href=/x>one</a> <a href=/x>two</a>");
     (pageX, Ref.page 200 "<p>no links</p>")]
    5.

Definition config (depth minSleep maxSleep : Z) : Config :=
  {| RootURLs := [home]; UserAgents := ["agent"]; BlacklistedURLs := [];
     MaxDepth := depth; Timeout := 0;
     MinSleep := minSleep; MaxSleep := maxSleep |}.

(** A sleep of 10^16 microseconds: more nanoseconds than a 64-bit
    duration holds. *)
Definition longSleep : Z := 10000000000000000.

End Demo.

(** ** Specification-side definitions

    What the claims about the crawler are stated with: the functions the
    specification describes in words, the instants at which a stop
    condition holds, and the shapes of event logs. *)

Section Specification.
Context {neturl : NetURL} {html : HTML} {http : HTTP}.
Variable cfg : Config.

(** Normalization as a function of the href and a non-nil base: the
    base's scheme, a colon and the href for a scheme-relative href;
    otherwise the href resolved against the base, and the empty string
    when the href does not parse. *)
Definition normalized (href : string) (b : URL) : string :=
  if HasPrefix href "//" then Scheme b +:+ ":" +:+ href
  else match url_Parse href with
       | None => ""
       | Some ref =>
           match ResolveReference (Some b) ref with
           | Some u => URL_String u
           | None => ""
           end
       end.

(** The tokens the tokenizer delivers before its first [ErrorToken]. *)
Fixpoint tokensBeforeError (fuel : nat) (z : Tokenizer)
  : list (TokenType * Token) :=
  match fuel with
  | O => []
  | S fuel' =>
      let '(ty, z') := Tokenizer_Next z in
      match ty with
      | ErrorToken => []
      | _ => (ty, Tokenizer_Token z') :: tokensBeforeError fuel' z'
      end
  end.

(** The href values of the anchor start tags among some tokens, in
    document order. *)
Definition hrefsOfToken (tt : TokenType * Token) : list string :=
  match fst tt with
  | StartTagToken =>
      if DataAtom (snd tt) =? atom_A
      then map Val (List.filter (fun a => String.eqb (Key a) "href")
                                (Attr (snd tt)))
      else []
  | _ => []
  end.

(** The links of a page: the href values of its anchors up to the first
    unreadable point, normalized against the base, those the filter
    accepts. *)
Definition linksOf (b : URL) (s : State) (body : list Byte.byte)
  : list string :=
  let z := NewTokenizer body in
  List.filter (fun u => accept cfg u s)
    (map (fun h => normalized h b)
         (flat_map hrefsOfToken
                   (tokensBeforeError (S (Tokenizer_left z)) z))).

(** One visit of the walk: the body of depthFirst between its guards
    and its recursive call (lines 165-179); [true] when it reaches the
    recursive call. *)
Definition visit (ctx : Context) : M bool := fun s =>
  (idx ← Intn (len (links s));
   let target := index (links s) idx in
   modify (set_links (delete (Z.to_nat idx) (links s)));;
   modify (fun s => set_visited ({[target]} ∪ visited s) s);;
   '(body, err) ← fetch cfg Walk ctx target;
   match err with
   | Some _ => mret false
   | None =>
       out ← extractLinks cfg body target;
       modify (fun s => set_links (links s ++ out) s);;
       jitter cfg;;
       mret true
   end) s.

(** The head of one iteration of Crawl's loop, after its guard (lines
    64-74); [true] when it reaches the call of depthFirst. *)
Definition seed (ctx : Context) : M bool :=
  i ← Intn (len (RootURLs cfg));
  let root := index (RootURLs cfg) i in
  '(body, err) ← fetch cfg Root ctx root;
  match err with
  | Some _ => mret false
  | None =>
      out ← extractLinks cfg body root;
      modify (set_links out);;
      mret (negb (len out =? 0))
  end.

(** The events one visit of [target] started at [t] can log: nothing
    (fetch panicked), a failed fetch, a successful fetch, or a
    successful fetch and the jitter sleep. *)
Inductive visitLog (target : string) (t : Z) : list Event -> Prop :=
| vl_none : UserAgents cfg = [] -> visitLog target t []
| vl_failed : visitLog target t [EvFetch Walk target t false]
| vl_fetched : visitLog target t [EvFetch Walk target t true]
| vl_slept r :
    0 <= r < wrap64 (wrap64 (MaxSleep cfg - MinSleep cfg) + 1) ->
    visitLog target t
      [EvFetch Walk target t true;
       EvSleep (wrap64 (wrap64 (r + MinSleep cfg) * Microsecond))].

(** The events the head of one iteration can log. *)
Inductive seedLog (t : Z) : list Event -> Prop :=
| sl_none : RootURLs cfg = [] \/ UserAgents cfg = [] -> seedLog t []
| sl_fetch root ok :
    In root (RootURLs cfg) -> seedLog t [EvFetch Root root t ok].

(** The first guard of depthFirst (line 158). *)
Definition guard (ctx : Context) (depth : Z) (s : State) : bool :=
  (MaxDepth cfg <=? depth) || ctx_Err ctx s || isTimeoutReached cfg s.

(** The stop conditions as predicates of the instant [t], for a session
    started at [start]: the context is cancelled; the timeout has
    elapsed. *)
Definition cancelledAt (ctx : Context) (t : Z) : bool :=
  match doneAt ctx with
  | Some d => d <=? t
  | None => false
  end.

Definition timedOutAt (start t : Z) : bool :=
  if Timeout cfg =? 0 then false
  else wrap64 (Timeout cfg * Second) <? sat64 (t - start).

Definition stopAt (ctx : Context) (start t : Z) : bool :=
  cancelledAt ctx t || timedOutAt start t.

(** A fetch started while no stop condition held (any other event
    qualifies). *)
Definition startedBeforeStop (ctx : Context) (start : Z) (e : Event)
  : Prop :=
  match e with
  | EvFetch _ _ t _ => stopAt ctx start t = false
  | EvSleep _ => True
  end.

Definition isRootFetch (e : Event) : Prop :=
  match e with
  | EvFetch Root _ _ _ => True
  | _ => False
  end.

(** A sleep of between MinSleep and MaxSleep microseconds (any other
    event qualifies). *)
Definition sleepInRange (e : Event) : Prop :=
  match e with
  | EvSleep d =>
      exists v, MinSleep cfg <= v <= MaxSleep cfg /\ d = v * Microsecond
  | EvFetch _ _ _ _ => True
  end.

(** The stop condition in the words of the specification: at instant
    [t] the context is cancelled, or the timeout is positive and the
    time elapsed since [start] exceeds it. *)
Definition stopRequested (ctx : Context) (start t : Z) : Prop :=
  cancelledAt ctx t = true \/
  (0 < Timeout cfg /\ Timeout cfg * Second < t - start).

(** The four rejection tests of the filter, in the order of the source:
    empty, already visited, blacklisted, not a request URI. *)
Definition rejections (link : string) (s : State) : list bool :=
  [String.eqb link "";
   bool_decide (link ∈ visited s);
   existsb (Contains link) (BlacklistedURLs cfg);
   match url_ParseRequestURI link with Some _ => false | None => true end].


(** The tests of the filter that do not depend on the visited set: not
    empty, no blacklist entry as a substring, a request URI. *)
Definition admissible (u : string) : bool :=
  negb (String.eqb u "")
  && negb (existsb (Contains u) (BlacklistedURLs cfg))
  && match url_ParseRequestURI u with Some _ => true | None => false end.

(** A fetch of the walk whose URL passes those tests (any other event
    qualifies). *)
Definition walkAdmissible (e : Event) : Prop :=
  match e with
  | EvFetch Walk url _ _ => admissible url = true
  | _ => True
  end.


(** A root fetch of a configured root, or any other event. *)
Definition rootConfigured (e : Event) : Prop :=
  match e with
  | EvFetch Root url _ _ => In url (RootURLs cfg)
  | _ => True
  end.

End Specification.

(** A fetch started between the instants [t0] and [t1] (any other event
    qualifies). *)
Definition fetchedWithin (t0 t1 : Z) (e : Event) : Prop :=
  match e with
  | EvFetch _ _ t _ => t0 <= t <= t1
  | EvSleep _ => True
  end.

(** The start time is kept, the clock has not gone back, and the log grew
    by fetches started in between. *)
Definition inSpan (a b : State) : Prop :=
  startTime b = startTime a /\ clock a <= clock b /\
  exists evs,
    events b = events a ++ evs /\
    Forall (fetchedWithin (clock a) (clock b)) evs.

(** Logs in which every sleep comes directly after a successful fetch of
    the walk. *)
Inductive sleepsFollowVisits : list Event -> Prop :=
| sfv_nil : sleepsFollowVisits []
| sfv_fetch site url t ok l :
    sleepsFollowVisits l -> sleepsFollowVisits (EvFetch site url t ok :: l)
| sfv_sleep url t d l :
    sleepsFollowVisits l ->
    sleepsFollowVisits (EvFetch Walk url t true :: EvSleep d :: l).

(** The URLs the walk fetched, from a log. *)
Fixpoint walkTargets (evs : list Event) : gset string :=
  match evs with
  | [] => ∅
  | EvFetch Walk url _ _ :: rest => {[url]} ∪ walkTargets rest
  | _ :: rest => walkTargets rest
  end.

(** The fetches of a log, as (site, URL) pairs. *)
Fixpoint fetches (evs : list Event) : list (Site * string) :=
  match evs with
  | [] => []
  | EvFetch site url _ _ :: rest => (site, url) :: fetches rest
  | EvSleep _ :: rest => fetches rest
  end.

(** How often [u] occurs in the queue. *)
Definition occurrences (u : string) (l : list string) : nat :=
  count_occ string_dec l u.

(** Whether fetch returned a nil error. *)
Definition noError (err : option FetchError) : bool :=
  match err with None => true | Some _ => false end.

(** [b] extends the log of [a] by events that satisfy [P a], and the two
    states are related by [K]. *)
Definition grows (P : State -> Event -> Prop) (K : State -> State -> Prop)
           (a b : State) : Prop :=
  K a b /\ exists evs, events b = events a ++ evs /\ Forall (P a) evs.

(** [b] extends the log of [a] by a list of events of shape [Q]. *)
Definition extends (Q : list Event -> Prop) (a b : State) : Prop :=
  exists evs, events b = events a ++ evs /\ Q evs.

(** [b] extends the log of [a], and its visited set is that of [a] with
    the URLs the walk fetched in between. *)
Definition visitedByWalk (a b : State) : Prop :=
  exists evs,
    events b = events a ++ evs /\
    visited b = visited a ∪ walkTargets evs.

(** The visited set has not shrunk from [a] to [b], and no URL visited in
    [a] occurs more often in the queue of [b] than in that of [a]. *)
Definition notReenqueued (a b : State) : Prop :=
  visited a ⊆ visited b /\
  forall u, u ∈ visited a ->
            (occurrences u (links b) <= occurrences u (links a))%nat.

(** One step of a walk, from [a] to [b] (depthFirst, lines 165-177): one
    entry of the queue is taken out and marked visited, and the URLs
    appended after it are all outside the visited set as it stands then,
    the entry just marked included. *)
Inductive visitStep (a b : State) : Prop :=
| vs_visit idx out :
    0 <= idx < len (links a) ->
    visited b = {[index (links a) idx]} ∪ visited a ->
    links b = delete (Z.to_nat idx) (links a) ++ out ->
    Forall (fun u => u ∉ visited b) out ->
    visitStep a b.

(** One change of the queue and of the visited set in a session: a step
    of a walk; or the visited set is kept and the queue is replaced by
    URLs outside it (Crawl, line 71); or both are kept. *)
Inductive queueStep (a b : State) : Prop :=
| qs_visit : visitStep a b -> queueStep a b
| qs_seed :
    visited b = visited a ->
    Forall (fun u => u ∉ visited b) (links b) ->
    queueStep a b
| qs_keep :
    visited b = visited a ->
    links b = links a ->
    queueStep a b.

(** Any number of such steps, one after the other. *)
Definition walkSteps : State -> State -> Prop := rtc visitStep.
Definition queueSteps : State -> State -> Prop := rtc queueStep.

(** The log of one walk: fetches that succeed, each followed by its
    sleep, up to a last fetch that is alone (it failed, or what followed
    it panicked). *)
Inductive walkLog : list Event -> Prop :=
| wl_nil : walkLog []
| wl_last url t ok : walkLog [EvFetch Walk url t ok]
| wl_step url t d l :
    walkLog l -> walkLog (EvFetch Walk url t true :: EvSleep d :: l).

(** The log of a session: iterations, each a root fetch followed, when it
    succeeded, by the log of one walk. *)
Inductive crawlLog : list Event -> Prop :=
| cl_nil : crawlLog []
| cl_root url t ok l : crawlLog l -> crawlLog (EvFetch Root url t ok :: l)
| cl_walk url t w l :
    walkLog w -> crawlLog l ->
    crawlLog (EvFetch Root url t true :: w ++ l).

(** ** The command (main.go): the logger *)

(** The flags of package log that the command uses. *)
Definition Ldate : Z := 1.
Definition Ltime : Z := 2.
Definition Lshortfile : Z := 16.

(** The standard logger, as far as setLogLevel sets it. *)
Record Logger := { logFlags : Z; logPrefix : string }.

(** The escape sequences of setLogLevel; the first byte is ESC (octal
    033). *)
Definition ESC : string := String (ascii_of_N 27) EmptyString.
Definition RESET : string := ESC +:+ "[0m".
Definition RED : string := ESC +:+ "[31m".
Definition GREEN : string := ESC +:+ "[32m".
Definition YELLOW : string := ESC +:+ "[33m".
Definition BLUE : string := ESC +:+ "[34m".

(** setLogLevel (lines 78-104 of the command); [ToLower] is
    strings.ToLower. *)
Definition setLogLevel (ToLower : string -> string) (level : string)
           (lg : Logger) : Logger :=
  let l := ToLower level in
  if String.eqb l "debug" then
    {| logFlags := Z.lor (Z.lor Ldate Ltime) Lshortfile;
       logPrefix := BLUE +:+ "DEBUG: " +:+ RESET |}
  else if String.eqb l "info" then
    {| logFlags := Z.lor Ldate Ltime;
       logPrefix := GREEN +:+ "INFO: " +:+ RESET |}
  else if String.eqb l "warn" || String.eqb l "warning" then
    {| logFlags := Z.lor Ldate Ltime;
       logPrefix := YELLOW +:+ "WARNING: " +:+ RESET |}
  else if String.eqb l "error" then
    {| logFlags := Z.lor (Z.lor Ldate Ltime) Lshortfile;
       logPrefix := RED +:+ "ERROR: " +:+ RESET |}
  else
    {| logFlags := Z.lor Ldate Ltime;
       logPrefix := GREEN +:+ "INFO: " +:+ RESET |}.

(** * Properties *)

(** ** Integers and strings *)

Lemma wrap64_id z : is_int64 z -> wrap64 z = z.
Proof.
  unfold is_int64, minInt64, maxInt64, wrap64. intros Hz.
  rewrite Z.mod_small; lia.
Qed.

Lemma sat64_mono a b : a <= b -> sat64 a <= sat64 b.
Proof. unfold sat64. lia. Qed.

Lemma prefix_spec p s :
  String.prefix p s = true <-> exists post, s = p +:+ post.
Proof.
  revert s. induction p as [|c p IH]; intros s; simpl.
  - split; [intros _; exists s; reflexivity | now destruct s].
  - destruct s as [|d s]; [split; [discriminate | intros [post [=]]]|].
    simpl. destruct (Ascii.ascii_dec c d) as [->|Hne].
    + rewrite IH. split; intros [post Hp]; exists post.
      * now rewrite Hp.
      * now injection Hp.
    + split; [discriminate | intros [post [=]]; congruence].
Qed.

Lemma Contains_spec s sub :
  Contains s sub = true <->
  exists pre post, s = pre +:+ sub +:+ post.
Proof.
  induction s as [|c s IH]; cbn [Contains].
  - rewrite orb_false_r, prefix_spec. split.
    + intros [post Hp]. exists EmptyString, post. exact Hp.
    + intros [pre [post Hp]]. destruct pre; [|discriminate].
      exists post. exact Hp.
  - rewrite orb_true_iff, prefix_spec, IH. split.
    + intros [[post Hp] | [pre [post Hp]]].
      * exists EmptyString, post. exact Hp.
      * exists (String c pre), post. simpl. now rewrite Hp.
    + intros [pre [post Hp]]. destruct pre as [|d pre]; simpl in Hp.
      * left. exists post. exact Hp.
      * right. exists pre, post. now injection Hp.
Qed.

(** ** States *)

Lemma state_eta s :
  {| rand := rand s; startTime := startTime s; links := links s;
     visited := visited s; clock := clock s; events := events s |} = s.
Proof. now destruct s. Qed.

Lemma set_rand_same s : set_rand (rand s) s = s.
Proof. apply state_eta. Qed.

Lemma state_ext a b :
  rand a = rand b -> startTime a = startTime b -> links a = links b ->
  visited a = visited b -> clock a = clock b -> events a = events b ->
  a = b.
Proof. destruct a, b; cbn; congruence. Qed.

(** Reads one field through a stack of updates. *)
Ltac state_fields :=
  cbn [rand startTime links visited clock events final
       set_rand set_startTime set_links set_visited set_clock add_event].

Section Proofs.
Context {neturl : NetURL} {html : HTML} {http : HTTP}.
Variable cfg : Config.

(** *** rand.Intn *)

Lemma Intn_cases n s :
  (n <= 0 /\ Intn n s = Panic s) \/
  (0 < n /\ exists v r, 0 <= v < n /\ Intn n s = Done v (set_rand r s)).
Proof.
  unfold Intn. destruct (Z.leb_spec n 0) as [Hn|Hn]; [left; auto|right].
  split; [exact Hn|]. destruct (rand s) as [|r rest] eqn:Er.
  - exists 0, (rand s). split; [lia|]. now rewrite set_rand_same.
  - exists (r mod n), rest. split; [apply Z.mod_pos_bound; lia|reflexivity].
Qed.

(** *** fetch *)

(** What a call of fetch does: it panics before any effect when the pool
    of user agents is empty, and otherwise returns having logged one
    event, advanced the clock and consumed at most one random value. *)
Lemma fetch_cases site ctx raw s :
  (UserAgents cfg = [] /\ fetch cfg site ctx raw s = Panic s) \/
  (exists body err r d,
      0 <= d /\
      fetch cfg site ctx raw s =
      Done (body, err)
           (add_event (EvFetch site raw (clock s) (noError err))
                      (set_clock (clock s + d) (set_rand r s)))).
Proof.
  unfold fetch, mbind, M_bind, gets, modify, mret, M_ret.
  destruct (NewRequest raw) as [req|].
  - destruct (Intn_cases (len (UserAgents cfg)) s)
      as [[Hn ->]|[Hn (v & r & Hv & ->)]].
    + left. split; [|reflexivity].
      unfold len in Hn. destruct (UserAgents cfg); [reflexivity|simpl in Hn; lia].
    + right.
      destruct (client_Do ctx req (index (UserAgents cfg) v) (clock (set_rand r s)))
        as [[err|resp] d] eqn:Ed; simpl in Ed; rewrite Ed.
      * exists [], (Some err), r, (Z.max 0 d). split; [lia|reflexivity].
      * destruct (ReadAll_Limit (Z.shiftl 1 20) resp) as [body err] eqn:Er.
        exists body, err, r, (Z.max 0 d). split; [lia|reflexivity].
  - right. exists [], (Some ErrRequest), (rand s), 0. split; [lia|].
    rewrite set_rand_same. unfold set_clock, add_event. simpl.
    now rewrite Z.add_0_r.
Qed.

(** *** normalize, accept, extractLinks *)

Lemma normalize_Some href b s :
  normalize href (Some b) s = Done (normalized href b) s.
Proof.
  unfold normalize, normalized.
  destruct (HasPrefix href "//"); [reflexivity|].
  destruct (url_Parse href) as [ref|]; [|reflexivity].
  destruct (ResolveReference_nonnil b ref) as [u ->]. reflexivity.
Qed.

Lemma normalize_cases href base s :
  normalize href base s = Panic s \/
  exists v, normalize href base s = Done v s.
Proof.
  destruct base as [b|]; [right; eexists; apply normalize_Some|].
  unfold normalize.
  destruct (HasPrefix href "//"); [now left|].
  destruct (url_Parse href) as [ref|]; [|right; now eexists].
  destruct (ResolveReference None ref); [right; now eexists | now left].
Qed.

Lemma collectHrefs_Some attrs b out s :
  collectHrefs cfg attrs (Some b) out s =
  Done (out ++ List.filter (fun u => accept cfg u s)
                 (map (fun h => normalized h b)
                      (map Val (List.filter
                                  (fun a => String.eqb (Key a) "href")
                                  attrs))))
       s.
Proof.
  revert out. induction attrs as [|a rest IH]; intros out; simpl.
  - now rewrite app_nil_r.
  - destruct (String.eqb (Key a) "href"); simpl; [|apply IH].
    unfold mbind, M_bind. rewrite normalize_Some. unfold gets.
    rewrite IH. destruct (accept cfg (normalized (Val a) b) s).
    + now rewrite <- app_assoc.
    + reflexivity.
Qed.

Lemma collectHrefs_cases attrs base out s :
  collectHrefs cfg attrs base out s = Panic s \/
  exists new, collectHrefs cfg attrs base out s = Done (out ++ new) s /\
              Forall (fun u => accept cfg u s = true) new.
Proof.
  revert out. induction attrs as [|a rest IH]; intros out; simpl.
  - right. exists []. now rewrite app_nil_r.
  - destruct (String.eqb (Key a) "href"); simpl; [|apply IH].
    unfold mbind, M_bind.
    destruct (normalize_cases (Val a) base s) as [->|[v ->]]; [now left|].
    unfold gets. destruct (accept cfg v s) eqn:Ea.
    + destruct (IH (out ++ [v])) as [->|(new & -> & Hnew)]; [now left|].
      right. exists (v :: new). rewrite <- app_assoc. split; [reflexivity|].
      now constructor.
    + apply IH.
Qed.

Lemma tokenLoop_Some fuel z b out s :
  (Tokenizer_left z < fuel)%nat ->
  tokenLoop cfg fuel z (Some b) out s =
  Done (out ++ List.filter (fun u => accept cfg u s)
                 (map (fun h => normalized h b)
                      (flat_map hrefsOfToken (tokensBeforeError fuel z))))
       s.
Proof.
  revert z out. induction fuel as [|fuel IH]; intros z out Hlt; [lia|].
  cbn [tokenLoop tokensBeforeError].
  pose proof (Tokenizer_progress z) as Hp.
  destruct (Tokenizer_Next z) as [ty z'] eqn:En. cbn [fst snd] in Hp.
  assert (Hstep : ty <> ErrorToken -> (Tokenizer_left z' < fuel)%nat)
    by (intros Hne; specialize (Hp Hne); lia).
  assert (Hskip :
    hrefsOfToken (ty, Tokenizer_Token z') = [] -> ty <> ErrorToken ->
    tokenLoop cfg fuel z' (Some b) out s =
    Done (out ++ List.filter (fun u => accept cfg u s)
            (map (fun h => normalized h b)
               (flat_map hrefsOfToken
                  ((ty, Tokenizer_Token z') :: tokensBeforeError fuel z'))))
         s).
  { intros He Hne. cbn [flat_map]. rewrite He. cbn [app].
    apply IH, Hstep, Hne. }
  destruct ty; try (apply Hskip; [reflexivity|discriminate]).
  - now rewrite app_nil_r.
  - destruct (DataAtom (Tokenizer_Token z') =? atom_A) eqn:Ea; cbn [negb].
    + unfold mbind, M_bind. rewrite collectHrefs_Some.
      rewrite IH by (apply Hstep; discriminate).
      cbn [flat_map]. unfold hrefsOfToken at 2. cbn [fst snd].
      rewrite Ea, List.map_app, List.filter_app, app_assoc. reflexivity.
    + apply Hskip; [|discriminate].
      unfold hrefsOfToken. cbn [fst snd]. now rewrite Ea.
Qed.

Lemma tokenLoop_cases fuel z base out s :
  (Tokenizer_left z < fuel)%nat ->
  tokenLoop cfg fuel z base out s = Panic s \/
  exists new, tokenLoop cfg fuel z base out s = Done (out ++ new) s /\
              Forall (fun u => accept cfg u s = true) new.
Proof.
  revert z out. induction fuel as [|fuel IH]; intros z out Hlt; [lia|].
  cbn [tokenLoop].
  pose proof (Tokenizer_progress z) as Hp.
  destruct (Tokenizer_Next z) as [ty z'] eqn:En. cbn [fst snd] in Hp.
  assert (Hstep : ty <> ErrorToken -> (Tokenizer_left z' < fuel)%nat)
    by (intros Hne; specialize (Hp Hne); lia).
  destruct ty; try (apply IH, Hstep; discriminate).
  - right. exists []. now rewrite app_nil_r.
  - destruct (negb (DataAtom (Tokenizer_Token z') =? atom_A));
      [apply IH, Hstep; discriminate|].
    unfold mbind, M_bind.
    destruct (collectHrefs_cases (Attr (Tokenizer_Token z')) base out s)
      as [->|(new & -> & Hnew)]; [now left|].
    destruct (IH z' (out ++ new)) as [->|(new' & -> & Hnew')];
      [apply Hstep; discriminate | now left |].
    right. exists (new ++ new'). rewrite app_assoc. split; [reflexivity|].
    now apply Forall_app.
Qed.

(** extractLinks leaves the state alone and never runs out of fuel; what
    it returns passed the filter. *)
Lemma extractLinks_cases body base s :
  extractLinks cfg body base s = Panic s \/
  exists out, extractLinks cfg body base s = Done out s /\
              Forall (fun u => accept cfg u s = true) out.
Proof.
  unfold extractLinks.
  destruct (tokenLoop_cases (S (Tokenizer_left (NewTokenizer body)))
              (NewTokenizer body) (url_Parse base) [] s)
    as [->|(new & -> & Hnew)]; [lia | now left |].
  right. now exists new.
Qed.

Lemma extractLinks_Some body base b s :
  url_Parse base = Some b ->
  extractLinks cfg body base s = Done (linksOf cfg b s body) s.
Proof.
  intros Hb. unfold extractLinks, linksOf. rewrite Hb.
  now rewrite tokenLoop_Some by lia.
Qed.

Lemma accept_not_visited u s : accept cfg u s = true -> u ∉ visited s.
Proof.
  unfold accept. destruct (String.eqb u ""); [discriminate|].
  destruct (bool_decide_reflect (u ∈ visited s)); [discriminate|auto].
Qed.

(** *** The jitter sleep *)

Lemma jitter_cases s :
  (wrap64 (wrap64 (MaxSleep cfg - MinSleep cfg) + 1) <= 0 /\
   jitter cfg s = Panic s) \/
  (exists r rnd,
      0 <= r < wrap64 (wrap64 (MaxSleep cfg - MinSleep cfg) + 1) /\
      let d := wrap64 (wrap64 (r + MinSleep cfg) * Microsecond) in
      jitter cfg s =
      Done tt (set_clock (clock s + Z.max 0 d)
                         (add_event (EvSleep d) (set_rand rnd s)))).
Proof.
  unfold jitter, mbind, M_bind, time_Sleep, modify.
  destruct (Intn_cases (wrap64 (wrap64 (MaxSleep cfg - MinSleep cfg) + 1)) s)
    as [[Hn ->]|[Hn (v & r & Hv & ->)]]; [left; auto|right].
  exists v, r. split; [exact Hv|reflexivity].
Qed.

(** *** One visit *)

Lemma index_In l i : 0 <= i < len l -> In (index l i) l.
Proof.
  unfold index, len. intros Hi. apply nth_In. lia.
Qed.

Lemma visit_spec ctx s :
  (len (links s) =? 0) = false ->
  exists idx rnd t' out evs,
    let target := index (links s) idx in
    0 <= idx < len (links s) /\
    clock s <= t' /\
    visitLog cfg target (clock s) evs /\
    Forall (fun u => u ∉ {[target]} ∪ visited s) out /\
    final (visit cfg ctx s) =
    {| rand := rnd; startTime := startTime s;
       links := delete (Z.to_nat idx) (links s) ++ out;
       visited := {[target]} ∪ visited s;
       clock := t'; events := events s ++ evs |}.
Proof.
  intros Hne. apply Z.eqb_neq in Hne.
  unfold visit, mbind, M_bind, modify, mret, M_ret.
  destruct (Intn_cases (len (links s)) s) as [[Hn _]|[_ (idx & r & Hi & ->)]];
    [unfold len in *; lia|].
  cbv beta iota zeta.
  set (target := index (links s) idx).
  match goal with
  | |- context [fetch cfg Walk ctx ?raw ?st] =>
      destruct (fetch_cases Walk ctx raw st)
        as [[Hua ->]|(body & err & r2 & d & Hd & ->)]
  end.
  - exists idx, r, (clock s), [], []. cbn. rewrite !app_nil_r.
    repeat split; try lia; [now constructor | constructor].
  - cbv beta iota zeta. destruct err as [e|]; cbn [noError].
    + exists idx, r2, (clock s + d), [], [EvFetch Walk target (clock s) false].
      cbn. rewrite !app_nil_r.
      repeat split; try lia; [constructor | constructor].
    + match goal with
      | |- context [extractLinks cfg ?b ?base ?st] =>
          destruct (extractLinks_cases b base st)
            as [->|(out & -> & Hout)]
      end.
      * exists idx, r2, (clock s + d), [], [EvFetch Walk target (clock s) true].
        cbn. rewrite !app_nil_r.
        repeat split; try lia; [constructor | constructor].
      * assert (Hfresh : Forall (fun u => u ∉ {[target]} ∪ visited s) out).
        { eapply Forall_impl; [exact Hout|].
          intros u Hu. apply accept_not_visited in Hu. cbn in Hu. exact Hu. }
        cbv beta iota zeta.
        match goal with
        | |- context [jitter cfg ?st] =>
            destruct (jitter_cases st) as [[Hn ->]|(v & r3 & Hv & ->)]
        end.
        -- exists idx, r2, (clock s + d), out,
             [EvFetch Walk target (clock s) true].
           cbn. repeat split; try lia; [constructor | exact Hfresh].
        -- exists idx, r3,
             (clock s + d
              + Z.max 0 (wrap64 (wrap64 (v + MinSleep cfg) * Microsecond))),
             out,
             [EvFetch Walk target (clock s) true;
              EvSleep (wrap64 (wrap64 (v + MinSleep cfg) * Microsecond))].
           cbv zeta.
           split; [exact Hi|]. split; [lia|].
           split; [apply (vl_slept _ _ _ v Hv)|].
           split; [exact Hfresh|].
           apply state_ext; state_fields; rewrite <- ?app_assoc; reflexivity.
Qed.

(** *** The head of an iteration *)

Lemma seed_spec ctx s :
  exists rnd t' l evs,
    clock s <= t' /\
    seedLog cfg (clock s) evs /\
    (l = links s \/ Forall (fun u => u ∉ visited s) l) /\
    (evs = [] -> is_done (seed cfg ctx s) = false) /\
    final (seed cfg ctx s) =
    {| rand := rnd; startTime := startTime s; links := l;
       visited := visited s; clock := t'; events := events s ++ evs |}.
Proof.
  unfold seed, mbind, M_bind, modify, mret, M_ret.
  destruct (Intn_cases (len (RootURLs cfg)) s)
    as [[Hn ->]|[_ (i & r & Hi & ->)]].
  - exists (rand s), (clock s), (links s), []. rewrite app_nil_r.
    repeat split; try lia; try (now left); try (now rewrite state_eta).
    constructor. left. unfold len in Hn.
    destruct (RootURLs cfg); [reflexivity|simpl in Hn; lia].
  - cbv beta iota zeta.
    pose proof (index_In _ _ Hi) as Hroot.
    set (root := index (RootURLs cfg) i) in *.
    match goal with
    | |- context [fetch cfg Root ctx ?raw ?st] =>
        destruct (fetch_cases Root ctx raw st)
          as [[Hua ->]|(body & err & r2 & d & Hd & ->)]
    end.
    + exists r, (clock s), (links s), []. rewrite app_nil_r.
      repeat split; try lia; try (now left).
      constructor. now right.
    + cbv beta iota zeta. destruct err as [e|]; cbn [noError].
      * exists r2, (clock s + d), (links s), [EvFetch Root root (clock s) false].
        repeat split; try lia; try discriminate; try (now left).
        now constructor.
      * match goal with
        | |- context [extractLinks cfg ?b ?base ?st] =>
            destruct (extractLinks_cases b base st)
              as [->|(out & -> & Hout)]
        end.
        -- exists r2, (clock s + d), (links s),
             [EvFetch Root root (clock s) true].
           repeat split; try lia; try discriminate; try (now left).
           now constructor.
        -- exists r2, (clock s + d), out, [EvFetch Root root (clock s) true].
           repeat split; try lia; try discriminate; [now constructor|].
           right. eapply Forall_impl; [exact Hout|].
           intros u Hu. apply accept_not_visited in Hu. exact Hu.
Qed.

(** *** depthFirst and Crawl, one level at a time *)

Lemma depthFirst_fuel_eq fuel ctx depth s :
  depthFirst_fuel cfg fuel ctx depth s =
  if guard cfg ctx depth s then Done tt s
  else if len (links s) =? 0 then Done tt s
  else match visit cfg ctx s with
       | Done true s1 =>
           match fuel with
           | O => More s1
           | S fuel' => depthFirst_fuel cfg fuel' ctx (depth + 1) s1
           end
       | Done false s1 => Done tt s1
       | Panic s1 => Panic s1
       | More s1 => More s1
       end.
Proof.
  unfold guard.
  destruct fuel; cbn [depthFirst_fuel];
    (destruct (_ || _ || _); [reflexivity|]);
    (destruct (len (links s) =? 0); [reflexivity|]);
    unfold visit, mbind, M_bind, modify, mret, M_ret, more;
    (destruct (Intn (len (links s)) s) as [idx s1|s1|s1]; [|reflexivity..]);
    cbv beta iota zeta;
    (destruct (fetch cfg Walk ctx _ _) as [[body [e|]] s2|s2|s2];
       [reflexivity| |reflexivity..]);
    (destruct (extractLinks cfg body _ s2) as [out s3|s3|s3];
       [|reflexivity..]);
    (destruct (jitter cfg _) as [[] s4|s4|s4]; reflexivity).
Qed.

Lemma Crawl_loop_eq fuel ctx s :
  Crawl_loop cfg (S fuel) ctx s =
  if ctx_Err ctx s || isTimeoutReached cfg s then Done tt s
  else match seed cfg ctx s with
       | Done true s1 =>
           match depthFirst cfg ctx 0 s1 with
           | Done _ s2 => Crawl_loop cfg fuel ctx s2
           | Panic s2 => Panic s2
           | More s2 => More s2
           end
       | Done false s1 => Crawl_loop cfg fuel ctx s1
       | Panic s1 => Panic s1
       | More s1 => More s1
       end.
Proof.
  cbn [Crawl_loop].
  destruct (_ || _); [reflexivity|].
  unfold seed, mbind, M_bind, modify, mret, M_ret.
  destruct (Intn (len (RootURLs cfg)) s) as [i s1|s1|s1]; [|reflexivity..].
  cbv beta iota zeta.
  destruct (fetch cfg Root ctx _ _) as [[body [e|]] s2|s2|s2];
    [reflexivity| |reflexivity..].
  destruct (extractLinks cfg body _ s2) as [out s3|s3|s3]; [|reflexivity..].
  destruct (len out =? 0); reflexivity.
Qed.

Lemma visit_done_or_panic ctx s : forall s', visit cfg ctx s <> More s'.
Proof.
  intros s'. unfold visit, mbind, M_bind, modify, mret, M_ret.
  destruct (Intn_cases (len (links s)) s) as [[_ ->]|[_ (i & r & _ & ->)]];
    [discriminate|].
  cbv beta iota zeta.
  match goal with
  | |- context [fetch cfg Walk ctx ?raw ?st] =>
      destruct (fetch_cases Walk ctx raw st)
        as [[_ ->]|(body & [e|] & r2 & d & _ & ->)]; try discriminate
  end.
  match goal with
  | |- context [extractLinks cfg ?b ?base ?st] =>
      destruct (extractLinks_cases b base st) as [->|(out & -> & _)];
        try discriminate
  end.
  cbv beta iota zeta.
  match goal with
  | |- context [jitter cfg ?st] =>
      destruct (jitter_cases st) as [[_ ->]|(v & r3 & _ & ->)];
        discriminate
  end.
Qed.

(** The fuel depthFirst gives itself is enough: the walk always returns
    or panics. *)
Lemma depthFirst_fuel_total fuel ctx depth s :
  MaxDepth cfg - depth <= Z.of_nat fuel ->
  forall s', depthFirst_fuel cfg fuel ctx depth s <> More s'.
Proof.
  revert depth s. induction fuel as [|fuel IH]; intros depth s Hf s';
    rewrite depthFirst_fuel_eq; unfold guard;
    destruct (Z.leb_spec (MaxDepth cfg) depth) as [Hd|Hd];
    cbn [orb]; try discriminate; try lia.
  destruct (_ || _); [discriminate|].
  destruct (len (links s) =? 0); [discriminate|].
  pose proof (visit_done_or_panic ctx s) as Hv.
  destruct (visit cfg ctx s) as [[] s1|s1|s1]; try discriminate.
  - apply IH. lia.
  - now destruct (Hv s1).
Qed.

Lemma depthFirst_total ctx depth s :
  forall s', depthFirst cfg ctx depth s <> More s'.
Proof. apply depthFirst_fuel_total. lia. Qed.

(** *** Invariants of the walk and of the crawl

    A reflexive and transitive relation between states that every visit
    and every head of an iteration respects holds between the state
    before and the state after a whole walk and a whole crawl, however
    they end. *)
Section Invariant.
Variable ctx : Context.
Variable R : State -> State -> Prop.
Hypothesis R_refl : forall s, R s s.
Hypothesis R_trans : forall a b c, R a b -> R b c -> R a c.
Hypothesis R_visit :
  forall depth s,
    0 <= depth -> guard cfg ctx depth s = false ->
    (len (links s) =? 0) = false ->
    R s (final (visit cfg ctx s)).
Hypothesis R_seed :
  forall s,
    ctx_Err ctx s || isTimeoutReached cfg s = false ->
    R s (final (seed cfg ctx s)).

Lemma depthFirst_fuel_inv fuel depth s :
  0 <= depth -> R s (final (depthFirst_fuel cfg fuel ctx depth s)).
Proof.
  revert depth s. induction fuel as [|fuel IH]; intros depth s Hd;
    rewrite depthFirst_fuel_eq;
    (destruct (guard cfg ctx depth s) eqn:Hg; [apply R_refl|]);
    (destruct (len (links s) =? 0) eqn:Hl; [apply R_refl|]);
    pose proof (R_visit depth s Hd Hg Hl) as Hv;
    destruct (visit cfg ctx s) as [[] s1|s1|s1]; cbn [final] in *;
    try exact Hv.
  eapply R_trans; [exact Hv|]. apply IH. lia.
Qed.

Lemma depthFirst_inv depth s :
  0 <= depth -> R s (final (depthFirst cfg ctx depth s)).
Proof. apply depthFirst_fuel_inv. Qed.

Lemma Crawl_loop_inv fuel s : R s (final (Crawl_loop cfg fuel ctx s)).
Proof.
  revert s. induction fuel as [|fuel IH]; intros s; [apply R_refl|].
  rewrite Crawl_loop_eq.
  destruct (_ || _) eqn:Hg; [apply R_refl|].
  pose proof (R_seed s Hg) as Hs.
  destruct (seed cfg ctx s) as [[] s1|s1|s1]; cbn [final] in *;
    try exact Hs.
  - pose proof (depthFirst_inv 0 s1 ltac:(lia)) as Hw.
    destruct (depthFirst cfg ctx 0 s1) as [[] s2|s2|s2]; cbn [final] in *.
    + eapply R_trans; [exact Hs|]. eapply R_trans; [exact Hw|]. apply IH.
    + eapply R_trans; eassumption.
    + eapply R_trans; eassumption.
  - eapply R_trans; [exact Hs|]. apply IH.
Qed.

(** One iteration that is not stopped: what follows its head respects
    [R], and nothing follows a head that did not return. *)
Lemma Crawl_loop_after_seed fuel s :
  ctx_Err ctx s || isTimeoutReached cfg s = false ->
  R (final (seed cfg ctx s)) (final (Crawl_loop cfg (S fuel) ctx s)) /\
  (is_done (seed cfg ctx s) = false ->
   final (Crawl_loop cfg (S fuel) ctx s) = final (seed cfg ctx s)).
Proof.
  intros Hg. rewrite Crawl_loop_eq, Hg.
  destruct (seed cfg ctx s) as [[] s1|s1|s1]; cbn [final is_done];
    (split; [|try discriminate; reflexivity]); try apply R_refl.
  - pose proof (depthFirst_inv 0 s1 ltac:(lia)) as Hw.
    destruct (depthFirst cfg ctx 0 s1) as [[] s2|s2|s2]; cbn [final] in *;
      try exact Hw.
    eapply R_trans; [exact Hw|]. apply Crawl_loop_inv.
  - apply Crawl_loop_inv.
Qed.
End Invariant.

Lemma Crawl_final fuel ctx s :
  final (Crawl cfg fuel ctx s) =
  final (Crawl_loop cfg fuel ctx (set_startTime (clock s) s)).
Proof. reflexivity. Qed.

(** *** Logs that only grow by events of one kind *)

Section LogInvariant.
Variable P : State -> Event -> Prop.
Variable K : State -> State -> Prop.
Hypothesis K_refl : forall s, K s s.
Hypothesis K_trans : forall a b c, K a b -> K b c -> K a c.
Hypothesis P_K : forall a b e, K a b -> P b e -> P a e.

Lemma grows_refl s : grows P K s s.
Proof.
  split; [apply K_refl|]. exists []. now rewrite app_nil_r.
Qed.

Lemma grows_trans a b c :
  grows P K a b -> grows P K b c -> grows P K a c.
Proof.
  intros [Kab (e1 & E1 & F1)] [Kbc (e2 & E2 & F2)].
  split; [eapply K_trans; eassumption|].
  exists (e1 ++ e2). rewrite E2, E1, app_assoc. split; [reflexivity|].
  apply Forall_app. split; [exact F1|].
  eapply Forall_impl; [exact F2|]. intros e. now apply P_K.
Qed.
End LogInvariant.

(** *** The depth ceiling *)

Lemma depthFirst_at_ceiling ctx depth s :
  MaxDepth cfg <= depth -> depthFirst cfg ctx depth s = Done tt s.
Proof.
  intros Hd. unfold depthFirst. rewrite depthFirst_fuel_eq. unfold guard.
  now destruct (Z.leb_spec (MaxDepth cfg) depth) as [_|Hlt]; [|lia].
Qed.

Lemma seedLog_root t evs : seedLog cfg t evs -> Forall isRootFetch evs.
Proof. intros [?|root ok ?]; repeat constructor. Qed.

Lemma Crawl_loop_only_roots fuel ctx s :
  MaxDepth cfg <= 0 ->
  grows (fun _ => isRootFetch) (fun _ _ => True) s
        (final (Crawl_loop cfg fuel ctx s)).
Proof.
  intros Hmax.
  apply Crawl_loop_inv.
  - apply grows_refl. auto.
  - apply grows_trans; auto.
  - intros depth s0 Hd Hg _. unfold guard in Hg.
    destruct (Z.leb_spec (MaxDepth cfg) depth); [discriminate|lia].
  - intros s0 _. destruct (seed_spec ctx s0)
      as (rnd & t' & l & evs & _ & Hlog & _ & _ & ->).
    split; [exact I|]. exists evs. split; [reflexivity|].
    eapply seedLog_root, Hlog.
Qed.

(** C3. With MaxDepth >= 0, a call of depthFirst whose depth has reached
    MaxDepth returns at once, in an unchanged state (so without any
    fetch); and with MaxDepth = 0 every fetch of a whole session is a
    root fetch of the outer loop. *)
Theorem depth_ceiling (Hmax : 0 <= MaxDepth cfg) :
  (forall ctx depth s,
      MaxDepth cfg <= depth -> depthFirst cfg ctx depth s = Done tt s) /\
  (MaxDepth cfg = 0 ->
   forall fuel ctx s,
   exists evs,
     events (final (Crawl cfg fuel ctx s)) = events s ++ evs /\
     Forall isRootFetch evs).
Proof.
  split; [intros; now apply depthFirst_at_ceiling|].
  intros Hzero fuel ctx s. rewrite Crawl_final.
  destruct (Crawl_loop_only_roots fuel ctx (set_startTime (clock s) s))
    as [_ Hg]; [lia|exact Hg].
Qed.

(** *** Stop conditions *)

Lemma stop_check ctx s :
  ctx_Err ctx s || isTimeoutReached cfg s =
  stopAt cfg ctx (startTime s) (clock s).
Proof. reflexivity. Qed.

Lemma wrap64_le z : 0 <= z -> wrap64 z <= z.
Proof.
  intros Hz. unfold wrap64.
  pose proof (Z.mod_le (z + 2 ^ 63) (2 ^ 64) ltac:(lia) ltac:(lia)). lia.
Qed.

Lemma wrap64_range z : minInt64 <= wrap64 z <= maxInt64.
Proof.
  unfold wrap64, minInt64, maxInt64.
  pose proof (Z.mod_pos_bound (z + 2 ^ 63) (2 ^ 64) ltac:(lia)). lia.
Qed.

Lemma wrap64_seconds_below_max n : wrap64 (n * Second) < maxInt64.
Proof.
  pose proof (wrap64_range (n * Second)) as Hr.
  destruct (Z.eq_dec (wrap64 (n * Second)) maxInt64) as [He|]; [|lia].
  exfalso. unfold wrap64, maxInt64, Second in He.
  pose proof (Z.div_mod (n * 1000000000 + 2 ^ 63) (2 ^ 64) ltac:(lia)) as Hd.
  remember ((n * 1000000000 + 2 ^ 63) / 2 ^ 64) as q.
  remember ((n * 1000000000 + 2 ^ 63) mod 2 ^ 64) as m.
  assert (Hm : m = 2 ^ 64 - 1) by lia. subst m. rewrite Hm in Hd.
  change (2 ^ 63) with 9223372036854775808 in Hd.
  change (2 ^ 64) with 18446744073709551616 in Hd.
  lia.
Qed.

(** Elapsed time beyond a positive timeout makes the test of
    isTimeoutReached succeed, whatever the wrap-around did to the
    product. *)
Lemma timedOutAt_elapsed start t :
  0 < Timeout cfg -> Timeout cfg * Second < t - start ->
  timedOutAt cfg start t = true.
Proof.
  intros Hpos Hel. unfold timedOutAt.
  destruct (Z.eqb_spec (Timeout cfg) 0); [lia|].
  apply Z.ltb_lt.
  pose proof (wrap64_le (Timeout cfg * Second)
                ltac:(unfold Second; lia)) as Hw.
  pose proof (wrap64_seconds_below_max (Timeout cfg)) as Hb.
  unfold sat64, minInt64, maxInt64 in *. lia.
Qed.

Lemma stopAt_mono ctx start t0 t :
  t0 <= t -> stopAt cfg ctx start t0 = true -> stopAt cfg ctx start t = true.
Proof.
  intros Hle. unfold stopAt, cancelledAt, timedOutAt.
  rewrite !orb_true_iff. intros [Hc|Ht].
  - left. destruct (doneAt ctx); [|discriminate].
    apply Z.leb_le in Hc. apply Z.leb_le. lia.
  - right. destruct (Timeout cfg =? 0); [discriminate|].
    apply Z.ltb_lt in Ht. apply Z.ltb_lt.
    pose proof (sat64_mono (t0 - start) (t - start) ltac:(lia)). lia.
Qed.

Lemma stopRequested_stopAt ctx start t :
  stopRequested cfg ctx start t -> stopAt cfg ctx start t = true.
Proof.
  unfold stopAt. intros [->|[Hp He]]; [reflexivity|].
  rewrite (timedOutAt_elapsed _ _ Hp He). apply orb_true_r.
Qed.

Lemma visitLog_started ctx start target t evs :
  stopAt cfg ctx start t = false ->
  visitLog cfg target t evs ->
  Forall (startedBeforeStop cfg ctx start) evs.
Proof. intros Hs [?| | |r ?]; repeat constructor; exact Hs. Qed.

Lemma seedLog_started ctx start t evs :
  stopAt cfg ctx start t = false ->
  seedLog cfg t evs ->
  Forall (startedBeforeStop cfg ctx start) evs.
Proof. intros Hs [?|root ok ?]; repeat constructor; exact Hs. Qed.

Lemma Crawl_loop_started fuel ctx s :
  grows (fun a => startedBeforeStop cfg ctx (startTime a))
        (fun a b => startTime b = startTime a)
        s (final (Crawl_loop cfg fuel ctx s)).
Proof.
  apply Crawl_loop_inv.
  - apply grows_refl. auto.
  - apply grows_trans; [congruence|]. intros a b e Hab. now rewrite Hab.
  - intros depth s0 _ Hg Hl. unfold guard in Hg.
    rewrite <- orb_assoc, stop_check in Hg.
    apply orb_false_iff in Hg as [_ Hg].
    destruct (visit_spec ctx s0 Hl)
      as (idx & rnd & t' & out & evs & _ & _ & Hlog & _ & ->).
    split; [reflexivity|]. exists evs. split; [reflexivity|].
    eapply visitLog_started; eassumption.
  - intros s0 Hg. rewrite stop_check in Hg.
    destruct (seed_spec ctx s0)
      as (rnd & t' & l & evs & _ & Hlog & _ & _ & ->).
    split; [reflexivity|]. exists evs. split; [reflexivity|].
    eapply seedLog_started; eassumption.
Qed.

(** C4. The stop condition (context cancelled, or timeout elapsed) is
    tested at the head of every iteration of the outer loop and at the
    head of every step of the walk, and a test that fires returns at
    once in an unchanged state; so over a whole session every fetch is
    started strictly before any instant at which the context is
    cancelled or the elapsed time exceeds a positive timeout. *)
Theorem no_fetch_once_stopped ctx :
  (forall fuel s,
      stopAt cfg ctx (startTime s) (clock s) = true ->
      Crawl_loop cfg (S fuel) ctx s = Done tt s) /\
  (forall depth s,
      stopAt cfg ctx (startTime s) (clock s) = true ->
      depthFirst cfg ctx depth s = Done tt s) /\
  (forall fuel s,
   exists evs,
     events (final (Crawl cfg fuel ctx s)) = events s ++ evs /\
     forall site url t ok,
       In (EvFetch site url t ok) evs ->
       forall t0, stopRequested cfg ctx (clock s) t0 -> t < t0).
Proof.
  split; [|split].
  - intros fuel s Hs. rewrite Crawl_loop_eq, stop_check, Hs. reflexivity.
  - intros depth s Hs. unfold depthFirst.
    rewrite depthFirst_fuel_eq. unfold guard.
    rewrite <- orb_assoc, stop_check, Hs, orb_true_r. reflexivity.
  - intros fuel s. rewrite Crawl_final.
    destruct (Crawl_loop_started fuel ctx (set_startTime (clock s) s))
      as [_ (evs & He & Hf)].
    exists evs. split; [exact He|].
    intros site url t ok Hin t0 Hreq.
    rewrite List.Forall_forall in Hf. specialize (Hf _ Hin). cbn in Hf.
    destruct (Z.lt_ge_cases t t0) as [|Hge]; [assumption|].
    apply stopRequested_stopAt in Hreq.
    rewrite (stopAt_mono _ _ _ _ Hge Hreq) in Hf. discriminate.
Qed.

(** *** The contracts of fetch, extractLinks, accept and normalize *)

Lemma index_first_In (l : list string) : l <> [] -> In (index l 0) l.
Proof. destruct l; [congruence|]. intros _. now left. Qed.

Lemma ReadAll_Limit_spec n resp :
  0 <= n ->
  ReadAll_Limit n resp =
  (take (Z.to_nat n) (BodyData resp),
   if len (BodyData resp) <? n then BodyErr resp else None).
Proof.
  intros Hn. unfold ReadAll_Limit, len.
  destruct (Z.leb_spec n (Z.of_nat (length (BodyData resp)))) as [Hl|Hl];
    destruct (Z.ltb_spec (Z.of_nat (length (BodyData resp))) n) as [Hl'|Hl'];
    try lia; [reflexivity|].
  rewrite take_ge by lia. reflexivity.
Qed.

(** C5. With a non-empty pool of user agents, fetch returns; it returns
    an error exactly when the request cannot be built, when the round
    trip fails, or when reading the body fails before the cap; the
    status code of a response plays no part; and the body returned is
    the first 2^20 bytes of the response body at most. *)
Theorem fetch_contract site ctx raw s (Hua : UserAgents cfg <> []) :
  exists body err s' ua,
    fetch cfg site ctx raw s = Done (body, err) s' /\
    In ua (UserAgents cfg) /\
    len body <= 2 ^ 20 /\
    match NewRequest raw with
    | None => body = [] /\ err = Some ErrRequest
    | Some req =>
        match fst (client_Do ctx req ua (clock s)) with
        | inl e => body = [] /\ err = Some e
        | inr resp =>
            body = take (Z.to_nat (2 ^ 20)) (BodyData resp) /\
            err = (if len (BodyData resp) <? 2 ^ 20
                   then BodyErr resp else None) /\
            (BodyErr resp = None -> err = None)
        end
    end.
Proof.
  unfold fetch, mbind, M_bind, gets, modify, mret, M_ret.
  destruct (NewRequest raw) as [req|].
  - destruct (Intn_cases (len (UserAgents cfg)) s)
      as [[Hn _]|[_ (v & r & Hv & ->)]].
    { unfold len in Hn. destruct (UserAgents cfg); [congruence|].
      simpl in Hn. lia. }
    cbv beta iota zeta.
    change (clock (set_rand r s)) with (clock s).
    destruct (client_Do ctx req (index (UserAgents cfg) v) (clock s))
      as [[e|resp] d] eqn:Ed.
    + eexists [], (Some e), _, (index (UserAgents cfg) v).
      split; [reflexivity|]. split; [now apply index_In|].
      split; [unfold len; simpl; lia|]. rewrite Ed. now split.
    + change (Z.shiftl 1 20) with (2 ^ 20).
      rewrite (ReadAll_Limit_spec (2 ^ 20) resp) by lia.
      eexists _, _, _, (index (UserAgents cfg) v).
      split; [reflexivity|]. split; [now apply index_In|].
      split.
      { unfold len. rewrite length_take. lia. }
      rewrite Ed. cbn [fst]. split; [reflexivity|]. split; [reflexivity|].
      intros ->. now destruct (_ <? _).
  - eexists [], (Some ErrRequest), _, (index (UserAgents cfg) 0).
    split; [reflexivity|]. split; [now apply index_first_In|].
    split; [unfold len; simpl; lia|]. now split.
Qed.

(** C6. For every body, and every base URL that parses, extractLinks
    returns (it neither panics nor runs on): it returns, in an unchanged
    state, the links of the anchors the tokenizer delivered before its
    first ErrorToken, which may be none. *)
Theorem extractLinks_total body base b s
        (Hbase : url_Parse base = Some b) :
  extractLinks cfg body base s = Done (linksOf cfg b s body) s.
Proof. now apply extractLinks_Some. Qed.

Lemma existsb_Contains link l :
  existsb (Contains link) l = true <->
  exists blk pre post, In blk l /\ link = pre +:+ blk +:+ post.
Proof.
  rewrite existsb_exists. split.
  - intros (blk & Hin & Hc). apply Contains_spec in Hc as (pre & post & ->).
    now exists blk, pre, post.
  - intros (blk & pre & post & Hin & ->). exists blk. split; [exact Hin|].
    apply Contains_spec. now exists pre, post.
Qed.

Lemma accept_rejections link s :
  accept cfg link s = forallb negb (rejections cfg link s).
Proof.
  unfold accept, rejections. cbn [forallb].
  destruct (String.eqb link ""); [reflexivity|].
  destruct (bool_decide (link ∈ visited s)); [reflexivity|].
  destruct (existsb _ _); [reflexivity|].
  now destruct (url_ParseRequestURI link).
Qed.

Lemma forallb_Permutation (f : bool -> bool) l l' :
  Permutation l l' -> forallb f l = forallb f l'.
Proof.
  induction 1 as [|x l l' _ IH|x y l|l l' l'' _ IH1 _ IH2]; cbn.
  - reflexivity.
  - now rewrite IH.
  - now destruct (f x), (f y).
  - congruence.
Qed.

(** C7. accept returns false exactly when the candidate is the empty
    string, or is in the visited set, or contains a blacklist entry as a
    substring at some position, or fails url.ParseRequestURI; and the
    four tests give the same answer in every order. *)
Theorem accept_rejects link s :
  (accept cfg link s = false <->
   link = "" \/
   link ∈ visited s \/
   (exists blk pre post,
       In blk (BlacklistedURLs cfg) /\ link = pre +:+ blk +:+ post) \/
   url_ParseRequestURI link = None) /\
  (forall checks,
      Permutation checks (rejections cfg link s) ->
      accept cfg link s = forallb negb checks).
Proof.
  split.
  - rewrite <- existsb_Contains. unfold accept.
    destruct (String.eqb_spec link ""); [tauto|].
    destruct (bool_decide_reflect (link ∈ visited s)); [tauto|].
    destruct (existsb (Contains link) (BlacklistedURLs cfg)); [tauto|].
    destruct (url_ParseRequestURI link); [|tauto].
    split; [discriminate|]. intros [?|[?|[?|?]]]; congruence.
  - intros checks Hp. rewrite accept_rejections.
    symmetry. now apply forallb_Permutation.
Qed.

(** C8. normalize is a function of the href and the base alone: for a
    non-nil base it returns, in an unchanged state, the base's scheme, a
    colon and the href when the href starts with two slashes, and
    otherwise the href parsed and resolved against the base, or the
    empty string when the href does not parse.  With the reference
    net/url and base https://a.example/x/, the href //b.example/y gives
    https://b.example/y and the href z.html gives
    https://a.example/x/z.html. *)
Theorem normalize_function href b s :
  normalize href (Some b) s = Done (normalized href b) s /\
  (HasPrefix href "//" = true ->
   normalized href b = Scheme b +:+ ":" +:+ href) /\
  (HasPrefix href "//" = false -> url_Parse href = None ->
   normalized href b = "") /\
  (HasPrefix href "//" = false ->
   forall ref, url_Parse href = Some ref ->
   exists u, ResolveReference (Some b) ref = Some u /\
             normalized href b = URL_String u) /\
  (exists base,
      @url_Parse Ref.RefURL "https://a.example/x/" = Some base /\
      @normalize Ref.RefURL "//b.example/y" (Some base) s
      = Done "https://b.example/y" s /\
      @normalize Ref.RefURL "z.html" (Some base) s
      = Done "https://a.example/x/z.html" s).
Proof.
  split; [apply normalize_Some|]. unfold normalized.
  split; [now intros ->|]. split; [now intros -> ->|].
  split.
  - intros -> ref ->. destruct (ResolveReference_nonnil b ref) as [u Hu].
    exists u. now rewrite Hu.
  - eexists. split; [reflexivity|]. split; reflexivity.
Qed.

(** *** Logs of a given shape *)

Section LogShape.
Variable Q : list Event -> Prop.
Hypothesis Q_nil : Q [].
Hypothesis Q_app : forall l1 l2, Q l1 -> Q l2 -> Q (l1 ++ l2).

Lemma extends_refl s : extends Q s s.
Proof. exists []. now rewrite app_nil_r. Qed.

Lemma extends_trans a b c :
  extends Q a b -> extends Q b c -> extends Q a c.
Proof.
  intros (e1 & E1 & Q1) (e2 & E2 & Q2). exists (e1 ++ e2).
  rewrite E2, E1, app_assoc. auto.
Qed.
End LogShape.

Lemma visit_extends ctx s :
  (len (links s) =? 0) = false ->
  exists target evs,
    visitLog cfg target (clock s) evs /\
    events (final (visit cfg ctx s)) = events s ++ evs.
Proof.
  intros Hl. destruct (visit_spec ctx s Hl)
    as (idx & rnd & t' & out & evs & _ & _ & Hlog & _ & ->).
  now exists (index (links s) idx), evs.
Qed.

Lemma seed_extends ctx s :
  exists evs,
    seedLog cfg (clock s) evs /\
    events (final (seed cfg ctx s)) = events s ++ evs /\
    (evs = [] -> is_done (seed cfg ctx s) = false).
Proof.
  destruct (seed_spec ctx s)
    as (rnd & t' & l & evs & _ & Hlog & _ & Hp & ->).
  now exists evs.
Qed.

(** A whole crawl extends the log by events of shape [Q] as soon as the
    logs of one visit and of one head have that shape. *)
Lemma Crawl_loop_extends (Q : list Event -> Prop) fuel ctx s :
  Q [] -> (forall l1 l2, Q l1 -> Q l2 -> Q (l1 ++ l2)) ->
  (forall target t evs, visitLog cfg target t evs -> Q evs) ->
  (forall t evs, seedLog cfg t evs -> Q evs) ->
  extends Q s (final (Crawl_loop cfg fuel ctx s)).
Proof.
  intros Qnil Qapp Qvisit Qseed. apply Crawl_loop_inv.
  - now apply extends_refl.
  - now apply extends_trans.
  - intros depth s0 _ _ Hl.
    destruct (visit_extends ctx s0 Hl) as (target & evs & Hlog & He).
    exists evs. split; [exact He|]. eapply Qvisit, Hlog.
  - intros s0 _. destruct (seed_extends ctx s0) as (evs & Hlog & He & _).
    exists evs. split; [exact He|]. eapply Qseed, Hlog.
Qed.

(** An iteration that is not stopped starts with the events of its
    head: a root fetch at the time of the guard, whatever the visited
    set holds; only a panic before that fetch leaves the log alone. *)
Lemma Crawl_loop_head fuel ctx s :
  stopAt cfg ctx (startTime s) (clock s) = false ->
  exists evs1 rest,
    seedLog cfg (clock s) evs1 /\
    events (final (Crawl_loop cfg (S fuel) ctx s))
    = events s ++ evs1 ++ rest /\
    (evs1 = [] -> rest = []).
Proof.
  intros Hg. rewrite <- stop_check in Hg.
  destruct (seed_extends ctx s) as (evs1 & Hlog & He & Hp).
  destruct (Crawl_loop_after_seed ctx (extends (fun _ => True))
              (extends_refl _ I)
              (extends_trans _ (fun _ _ _ _ => I))) with (fuel := fuel) (s := s)
    as [(rest & Hr & _) Hstop]; try exact Hg.
  - intros depth s0 _ _ Hl.
    destruct (visit_extends ctx s0 Hl) as (target & evs & _ & Hv).
    now exists evs.
  - intros s0 _. destruct (seed_extends ctx s0) as (evs & _ & Hs & _).
    now exists evs.
  - destruct evs1 as [|e evs1].
    + exists [], []. rewrite (Hstop (Hp eq_refl)), He. now repeat split.
    + exists (e :: evs1), rest. rewrite Hr, He, <- app_assoc.
      repeat split; [exact Hlog|discriminate].
Qed.

Lemma sleepsFollowVisits_app l1 l2 :
  sleepsFollowVisits l1 -> sleepsFollowVisits l2 ->
  sleepsFollowVisits (l1 ++ l2).
Proof.
  intros H1 H2. induction H1; cbn; [assumption|constructor..]; assumption.
Qed.

Lemma visitLog_shape target t evs :
  visitLog cfg target t evs -> sleepsFollowVisits evs.
Proof.
  intros [?| | |r ?]; [repeat constructor..|apply sfv_sleep; constructor].
Qed.

Lemma seedLog_shape t evs : seedLog cfg t evs -> sleepsFollowVisits evs.
Proof. intros [?|root ok ?]; repeat constructor. Qed.

Lemma log_first fuel ctx s evs :
  events (final (Crawl_loop cfg fuel ctx s)) = events s ++ evs ->
  evs = [] \/ exists root t ok rest, evs = EvFetch Root root t ok :: rest.
Proof.
  intros He.
  assert (Hnil : forall l : list Event, events s = events s ++ l -> l = []).
  { intros l Hl. rewrite <- (app_nil_r (events s)) in Hl at 1.
    now apply app_inv_head in Hl. }
  destruct fuel as [|fuel]; [left; symmetry in He; now apply Hnil|].
  destruct (stopAt cfg ctx (startTime s) (clock s)) eqn:Hg.
  - rewrite Crawl_loop_eq, stop_check, Hg in He.
    left. symmetry in He. now apply Hnil.
  - destruct (Crawl_loop_head fuel ctx s Hg)
      as (evs1 & rest & Hlog & Hh & Hp).
    rewrite Hh in He. apply app_inv_head in He. subst evs.
    destruct Hlog as [?|root ok ?]; [left; now rewrite (Hp eq_refl)|].
    right. now exists root, (clock s), ok, rest.
Qed.

(** *** The jitter sleep *)

Section Jitter.
Hypothesis Hle : MinSleep cfg <= MaxSleep cfg.
Hypothesis Hmin : minInt64 <= MinSleep cfg * Microsecond.
Hypothesis Hmax : MaxSleep cfg * Microsecond <= maxInt64.

Lemma sleep_span :
  wrap64 (wrap64 (MaxSleep cfg - MinSleep cfg) + 1)
  = MaxSleep cfg - MinSleep cfg + 1.
Proof.
  unfold Microsecond, minInt64, maxInt64 in *.
  rewrite (wrap64_id (MaxSleep cfg - MinSleep cfg));
    [apply wrap64_id|]; unfold is_int64, minInt64, maxInt64; lia.
Qed.

Lemma sleep_duration r :
  0 <= r < MaxSleep cfg - MinSleep cfg + 1 ->
  wrap64 (wrap64 (r + MinSleep cfg) * Microsecond)
  = (r + MinSleep cfg) * Microsecond.
Proof.
  intros Hr. unfold Microsecond, minInt64, maxInt64 in *.
  rewrite (wrap64_id (r + MinSleep cfg));
    [apply wrap64_id|]; unfold is_int64, minInt64, maxInt64; lia.
Qed.

Lemma visitLog_in_range target t evs :
  visitLog cfg target t evs -> Forall (sleepInRange cfg) evs.
Proof.
  intros [?| | |r Hr]; repeat constructor.
  rewrite sleep_span in Hr. rewrite sleep_duration by exact Hr.
  exists (r + MinSleep cfg). split; [lia|reflexivity].
Qed.

Lemma seedLog_in_range t evs :
  seedLog cfg t evs -> Forall (sleepInRange cfg) evs.
Proof. intros [?|root ok ?]; repeat constructor. Qed.

Lemma jitter_reaches v s :
  MinSleep cfg <= v <= MaxSleep cfg ->
  jitter cfg (set_rand [v - MinSleep cfg] s)
  = Done tt (set_clock (clock s + Z.max 0 (v * Microsecond))
               (add_event (EvSleep (v * Microsecond)) (set_rand [] s))).
Proof.
  intros Hv. unfold jitter, mbind, M_bind, Intn, time_Sleep, modify.
  rewrite sleep_span.
  destruct (Z.leb_spec (MaxSleep cfg - MinSleep cfg + 1) 0); [lia|].
  cbn [rand set_rand].
  rewrite Z.mod_small by lia.
  rewrite sleep_duration by lia.
  replace (v - MinSleep cfg + MinSleep cfg) with v by lia.
  reflexivity.
Qed.
End Jitter.

(** C9 (as amended). When MinSleep <= MaxSleep and both bounds, in
    nanoseconds, fit a 64-bit duration, every sleep of a session lasts
    between MinSleep and MaxSleep microseconds, it comes directly after
    a successful fetch of the walk, and the log of a session starts with
    a root fetch, never with a sleep; and every duration of that range
    is the sleep for some state of the random generator. *)
Theorem jitter_within_bounds
        (Hle : MinSleep cfg <= MaxSleep cfg)
        (Hmin : minInt64 <= MinSleep cfg * Microsecond)
        (Hmax : MaxSleep cfg * Microsecond <= maxInt64) :
  (forall fuel ctx s,
   exists evs,
     events (final (Crawl cfg fuel ctx s)) = events s ++ evs /\
     Forall (sleepInRange cfg) evs /\
     sleepsFollowVisits evs /\
     (evs = [] \/
      exists root t ok rest, evs = EvFetch Root root t ok :: rest)) /\
  (forall v s,
      MinSleep cfg <= v <= MaxSleep cfg ->
      exists rnd s',
        jitter cfg (set_rand rnd s) = Done tt s' /\
        events s' = events s ++ [EvSleep (v * Microsecond)]).
Proof.
  split.
  - intros fuel ctx s. rewrite Crawl_final.
    destruct (Crawl_loop_extends
                (fun evs => sleepsFollowVisits evs /\
                            Forall (sleepInRange cfg) evs)
                fuel ctx (set_startTime (clock s) s))
      as (evs & He & Hs & Hf).
    + split; constructor.
    + intros l1 l2 [S1 F1] [S2 F2].
      split; [now apply sleepsFollowVisits_app|]. apply Forall_app. now split.
    + intros target t evs Hlog.
      split; [eapply visitLog_shape|eapply visitLog_in_range]; eassumption.
    + intros t evs Hlog.
      split; [eapply seedLog_shape|eapply seedLog_in_range]; eassumption.
    + exists evs. repeat split; try assumption.
      eapply log_first. exact He.
  - intros v s Hv. exists [v - MinSleep cfg]. eexists.
    split; [now apply jitter_reaches|reflexivity].
Qed.

(** *** The visited set *)

Lemma walkTargets_app l1 l2 :
  walkTargets (l1 ++ l2) = walkTargets l1 ∪ walkTargets l2.
Proof.
  induction l1 as [|[[] url t ok|d] l1 IH]; cbn [app walkTargets].
  - now rewrite union_empty_l_L.
  - exact IH.
  - rewrite IH. apply (assoc_L (∪)).
  - exact IH.
Qed.

Lemma visitLog_targets target t evs :
  UserAgents cfg <> [] ->
  visitLog cfg target t evs -> walkTargets evs = {[target]}.
Proof.
  intros Hua [?| | |r ?]; cbn [walkTargets];
    [congruence|apply union_empty_r_L..].
Qed.

Lemma seedLog_targets t evs : seedLog cfg t evs -> walkTargets evs = ∅.
Proof. intros [?|root ok ?]; reflexivity. Qed.

Lemma Crawl_loop_visited fuel ctx s :
  UserAgents cfg <> [] ->
  visitedByWalk s (final (Crawl_loop cfg fuel ctx s)).
Proof.
  intros Hua. apply Crawl_loop_inv.
  - intros a. exists []. rewrite app_nil_r. split; [reflexivity|].
    cbn [walkTargets]. now rewrite union_empty_r_L.
  - intros a b c (e1 & E1 & V1) (e2 & E2 & V2). exists (e1 ++ e2).
    rewrite E2, E1, app_assoc, V2, V1, walkTargets_app.
    split; [reflexivity|]. symmetry. apply (assoc_L (∪)).
  - intros depth s0 _ _ Hl.
    destruct (visit_spec ctx s0 Hl)
      as (idx & rnd & t' & out & evs & _ & _ & Hlog & _ & ->).
    exists evs. split; [reflexivity|]. cbn [visited].
    rewrite (visitLog_targets _ _ _ Hua Hlog). apply (comm_L (∪)).
  - intros s0 _.
    destruct (seed_spec ctx s0)
      as (rnd & t' & l & evs & _ & Hlog & _ & _ & ->).
    exists evs. split; [reflexivity|]. cbn [visited].
    rewrite (seedLog_targets _ _ Hlog). now rewrite union_empty_r_L.
Qed.

Lemma seed_visited ctx s : visited (final (seed cfg ctx s)) = visited s.
Proof.
  destruct (seed_spec ctx s) as (rnd & t' & l & evs & _ & _ & _ & _ & ->).
  reflexivity.
Qed.

(** C10. With a non-empty pool of user agents: the head of an iteration
    of the outer loop (root selection, root fetch, seeding of the queue)
    leaves the visited set as it was; an iteration that is not stopped
    fetches a root at that instant whatever the visited set holds, so a
    root already visited is fetched again; and over a whole session the
    visited set grows by exactly the URLs the walk dequeued and
    fetched. *)
Theorem root_fetch_frame (Hua : UserAgents cfg <> []) :
  (forall ctx s, visited (final (seed cfg ctx s)) = visited s) /\
  (forall fuel ctx s,
      RootURLs cfg <> [] ->
      stopAt cfg ctx (startTime s) (clock s) = false ->
      exists root ok rest,
        In root (RootURLs cfg) /\
        events (final (Crawl_loop cfg (S fuel) ctx s))
        = events s ++ EvFetch Root root (clock s) ok :: rest) /\
  (forall fuel ctx s,
   exists evs,
     events (final (Crawl cfg fuel ctx s)) = events s ++ evs /\
     visited (final (Crawl cfg fuel ctx s))
     = visited s ∪ walkTargets evs).
Proof.
  split; [apply seed_visited|]. split.
  - intros fuel ctx s Hroots Hg.
    destruct (Crawl_loop_head fuel ctx s Hg)
      as (evs1 & rest & Hlog & Hh & _).
    destruct Hlog as [[?|?]|root ok Hin]; [congruence..|].
    exists root, ok, rest. split; [exact Hin|exact Hh].
  - intros fuel ctx s. rewrite Crawl_final.
    exact (Crawl_loop_visited fuel ctx (set_startTime (clock s) s) Hua).
Qed.

(** *** Visited URLs and the queue *)

Lemma occurrences_app u l1 l2 :
  occurrences u (l1 ++ l2) = (occurrences u l1 + occurrences u l2)%nat.
Proof. apply count_occ_app. Qed.

Lemma occurrences_delete u i (l : list string) :
  (occurrences u (delete i l) <= occurrences u l)%nat.
Proof.
  unfold occurrences. revert i.
  induction l as [|x l IH]; intros i; [destruct i; cbn; lia|].
  destruct i as [|i].
  - change (delete 0%nat (x :: l)) with l. cbn [count_occ].
    destruct (string_dec x u); lia.
  - change (delete (S i) (x :: l)) with (x :: delete i l).
    specialize (IH i). cbn [count_occ].
    destruct (string_dec x u); lia.
Qed.

Lemma occurrences_fresh u (X : gset string) l :
  u ∈ X -> Forall (fun v => v ∉ X) l -> occurrences u l = O.
Proof.
  intros Hu Hl. apply count_occ_not_In. intros Hin.
  rewrite List.Forall_forall in Hl. now apply (Hl u Hin).
Qed.

Lemma notReenqueued_refl s : notReenqueued s s.
Proof. split; [set_solver|auto]. Qed.

Lemma notReenqueued_trans a b c :
  notReenqueued a b -> notReenqueued b c -> notReenqueued a c.
Proof.
  intros [V1 O1] [V2 O2]. split; [set_solver|].
  intros u Hu. specialize (O1 u Hu). specialize (O2 u (V1 u Hu)). lia.
Qed.

Lemma visit_notReenqueued ctx s :
  (len (links s) =? 0) = false ->
  notReenqueued s (final (visit cfg ctx s)).
Proof.
  intros Hl. destruct (visit_spec ctx s Hl)
    as (idx & rnd & t' & out & evs & _ & _ & _ & Hout & ->).
  split; cbn [visited links]; [set_solver|].
  intros u Hu. rewrite occurrences_app.
  assert (Hin : u ∈ {[index (links s) idx]} ∪ visited s)
    by (apply elem_of_union; now right).
  rewrite (occurrences_fresh u _ out Hin Hout).
  pose proof (occurrences_delete u (Z.to_nat idx) (links s)). lia.
Qed.

Lemma seed_notReenqueued ctx s : notReenqueued s (final (seed cfg ctx s)).
Proof.
  destruct (seed_spec ctx s)
    as (rnd & t' & l & evs & _ & _ & Hl & _ & ->).
  split; cbn [visited links]; [set_solver|].
  intros u Hu. destruct Hl as [->|Hl]; [lia|].
  rewrite (occurrences_fresh u _ l Hu Hl). lia.
Qed.

Lemma walkSteps_refl s : walkSteps s s.
Proof. apply rtc_refl. Qed.

Lemma walkSteps_trans a b c :
  walkSteps a b -> walkSteps b c -> walkSteps a c.
Proof. unfold walkSteps. intros Hab Hbc. etransitivity; eassumption. Qed.

Lemma queueSteps_refl s : queueSteps s s.
Proof. apply rtc_refl. Qed.

Lemma queueSteps_trans a b c :
  queueSteps a b -> queueSteps b c -> queueSteps a c.
Proof. unfold queueSteps. intros Hab Hbc. etransitivity; eassumption. Qed.

Lemma walkSteps_queueSteps a b : walkSteps a b -> queueSteps a b.
Proof.
  unfold walkSteps, queueSteps. induction 1 as [a|a b c Hab _ IH].
  - apply rtc_refl.
  - eapply rtc_l; [apply qs_visit, Hab|exact IH].
Qed.

Lemma visit_visitStep ctx s :
  (len (links s) =? 0) = false ->
  visitStep s (final (visit cfg ctx s)).
Proof.
  intros Hl.
  destruct (visit_spec ctx s Hl)
    as (idx & rnd & t' & out & evs & Hi & _ & _ & Ho & ->).
  apply (vs_visit _ _ idx out); state_fields.
  - exact Hi.
  - reflexivity.
  - reflexivity.
  - exact Ho.
Qed.

Lemma seed_queueStep ctx s : queueStep s (final (seed cfg ctx s)).
Proof.
  destruct (seed_spec ctx s)
    as (rnd & t' & l & evs & _ & _ & Hl & _ & ->).
  destruct Hl as [->|Hl].
  - apply qs_keep; reflexivity.
  - apply qs_seed; state_fields; [reflexivity|exact Hl].
Qed.

Lemma occurrences_delete_nth i (l : list string) :
  (i < length l)%nat ->
  S (occurrences (nth i l "") (delete i l)) = occurrences (nth i l "") l.
Proof.
  unfold occurrences. revert i.
  induction l as [|x l IH]; intros i Hi; [cbn in Hi; lia|].
  destruct i as [|i].
  - change (delete 0%nat (x :: l)) with l. cbn [nth count_occ].
    destruct (string_dec x x) as [_|Hn]; [reflexivity|].
    destruct Hn; reflexivity.
  - change (delete (S i) (x :: l)) with (x :: delete i l).
    cbn [length] in Hi. assert (Hi' : (i < length l)%nat) by lia.
    specialize (IH i Hi'). cbn [nth count_occ].
    destruct (string_dec x (nth i l "")); lia.
Qed.

(** What a step of a walk means for the counts: a URL that is visited
    after the step occurs in the queue no more often than before it, and
    the URL that the step marks visited occurs once less. *)
Lemma visitStep_occurrences a b :
  visitStep a b ->
  visited a ⊆ visited b /\
  (forall u, u ∈ visited b ->
             (occurrences u (links b) <= occurrences u (links a))%nat) /\
  (forall u, u ∈ visited b -> u ∉ visited a ->
             S (occurrences u (links b)) = occurrences u (links a)).
Proof.
  intros [idx out Hi Hv Hl Ho]. split; [|split].
  - rewrite Hv. apply union_subseteq_r.
  - intros u Hu. rewrite Hl, occurrences_app.
    rewrite (occurrences_fresh u _ out Hu Ho).
    pose proof (occurrences_delete u (Z.to_nat idx) (links a)). lia.
  - intros u Hu Hn. rewrite Hl, occurrences_app.
    rewrite (occurrences_fresh u _ out Hu Ho).
    rewrite Hv in Hu. apply elem_of_union in Hu as [Hu|Hu];
      [|contradiction].
    apply elem_of_singleton in Hu. subst u. unfold index.
    rewrite Nat.add_0_r. apply occurrences_delete_nth.
    unfold len in Hi. lia.
Qed.

Lemma queueStep_occurrences a b :
  queueStep a b ->
  visited a ⊆ visited b /\
  forall u, u ∈ visited b ->
            (occurrences u (links b) <= occurrences u (links a))%nat.
Proof.
  intros [Hs|Hv Hl|Hv Hl].
  - destruct (visitStep_occurrences a b Hs) as (Hsub & Ho & _).
    split; assumption.
  - split.
    + rewrite Hv. reflexivity.
    + intros u Hu. rewrite (occurrences_fresh u _ _ Hu Hl). lia.
  - split.
    + rewrite Hv. reflexivity.
    + intros u _. rewrite Hl. lia.
Qed.

Lemma queueSteps_notReenqueued a b : queueSteps a b -> notReenqueued a b.
Proof.
  unfold queueSteps. induction 1 as [a|a b c Hab _ IH].
  - apply notReenqueued_refl.
  - apply notReenqueued_trans with b; [|exact IH].
    destruct (queueStep_occurrences a b Hab) as [Hs Ho].
    split; [exact Hs|]. intros u Hu. apply Ho, Hs, Hu.
Qed.

(** A walk over a queue that holds one URL, not visited yet: once the
    walk has visited it, it is not in the queue. *)
Lemma walkSteps_single a b t :
  walkSteps a b -> links a = [t] -> t ∉ visited a -> t ∈ visited b ->
  occurrences t (links b) = O.
Proof.
  unfold walkSteps. intros Hab Hl Hn Hb.
  destruct Hab as [a|a x b Hax Hxb]; [contradiction|].
  assert (Hx : t ∈ visited x /\ occurrences t (links x) = O).
  { destruct Hax as [idx out Hi Hv Hlx Ho]. rewrite Hl in *.
    assert (Hidx : idx = 0) by (unfold len in Hi; cbn in Hi; lia).
    subst idx. change (index [t] 0) with t in Hv.
    assert (Ht : t ∈ visited x)
      by (rewrite Hv; apply elem_of_union_l, elem_of_singleton;
          reflexivity).
    split; [exact Ht|].
    change (delete (Z.to_nat 0) [t]) with (@nil string) in Hlx.
    rewrite Hlx. cbn [app]. apply (occurrences_fresh t _ out Ht Ho). }
  destruct Hx as [Ht Hc].
  destruct (queueSteps_notReenqueued x b
              (walkSteps_queueSteps x b Hxb)) as [_ Ho].
  specialize (Ho t Ht). lia.
Qed.

(** C1 (as amended). A URL in the visited set is never enqueued again.
    What extractLinks returns holds no visited URL.  Every walk changes
    the queue and the visited set by a sequence of steps of which each
    takes one entry out of the queue, marks it visited and appends only
    URLs that are outside the visited set as it stands after the marking;
    every session does so by such steps and by steps that keep the
    visited set and either keep the queue or replace it by URLs outside
    the visited set.  So the visited set never shrinks and no URL that is
    visited comes to occur more often in the queue.  The root fetch is
    not subject to the visited set: an iteration of the outer loop that
    starts while no stop condition holds, with every root already
    visited, fetches a visited root again. *)
Theorem visited_not_reenqueued :
  (forall body base s out s',
      extractLinks cfg body base s = Done out s' ->
      s' = s /\ Forall (fun u => u ∉ visited s) out) /\
  (forall ctx depth s,
      0 <= depth ->
      walkSteps s (final (depthFirst cfg ctx depth s)) /\
      notReenqueued s (final (depthFirst cfg ctx depth s))) /\
  (forall fuel ctx s,
      queueSteps s (final (Crawl cfg fuel ctx s)) /\
      notReenqueued s (final (Crawl cfg fuel ctx s))) /\
  (forall fuel ctx s,
      RootURLs cfg <> [] -> UserAgents cfg <> [] ->
      stopAt cfg ctx (startTime s) (clock s) = false ->
      (forall r, In r (RootURLs cfg) -> r ∈ visited s) ->
      exists root ok rest,
        root ∈ visited s /\
        events (final (Crawl_loop cfg (S fuel) ctx s))
        = events s ++ EvFetch Root root (clock s) ok :: rest).
Proof.
  assert (Hwalk : forall ctx depth s,
             0 <= depth ->
             walkSteps s (final (depthFirst cfg ctx depth s))).
  { intros ctx depth s Hd.
    apply (depthFirst_fuel_inv ctx walkSteps walkSteps_refl
             walkSteps_trans
             (fun d s0 _ _ Hl => rtc_once _ _ (visit_visitStep ctx s0 Hl))).
    exact Hd. }
  assert (Hsession : forall fuel ctx s,
             queueSteps s (final (Crawl cfg fuel ctx s))).
  { intros fuel ctx s. rewrite Crawl_final.
    apply queueSteps_trans with (set_startTime (clock s) s).
    - apply rtc_once. apply qs_keep; reflexivity.
    - apply (Crawl_loop_inv ctx queueSteps queueSteps_refl
               queueSteps_trans
               (fun d s0 _ _ Hl =>
                  rtc_once _ _ (qs_visit _ _ (visit_visitStep ctx s0 Hl)))
               (fun s0 _ => rtc_once _ _ (seed_queueStep ctx s0))
               fuel (set_startTime (clock s) s)). }
  split; [|split; [|split]].
  - intros body base s out s' He.
    destruct (extractLinks_cases body base s) as [Hp|(out' & Hd & Ha)];
      rewrite He in *; [discriminate|].
    injection Hd as -> ->. split; [reflexivity|].
    eapply Forall_impl; [exact Ha|]. intros u. apply accept_not_visited.
  - intros ctx depth s Hd. split; [apply Hwalk, Hd|].
    apply queueSteps_notReenqueued, walkSteps_queueSteps, Hwalk, Hd.
  - intros fuel ctx s. split; [apply Hsession|].
    apply queueSteps_notReenqueued, Hsession.
  - intros fuel ctx s Hr Hu Hg Hvis.
    destruct (Crawl_loop_head fuel ctx s Hg)
      as (evs1 & rest & Hlog & He & _).
    destruct Hlog as [[Hn|Hn]|root ok Hin].
    + contradiction.
    + contradiction.
    + exists root, ok, rest. split; [apply Hvis, Hin|]. exact He.
Qed.


(** ** Further properties of the crawler *)

(** *** One visit and one head, outcome by outcome *)

Lemma accept_split u s :
  accept cfg u s = admissible cfg u && negb (bool_decide (u ∈ visited s)).
Proof.
  unfold accept, admissible.
  destruct (String.eqb u ""); [reflexivity|].
  destruct (bool_decide (u ∈ visited s)); cbn [negb andb].
  - now rewrite andb_false_r.
  - rewrite andb_true_r.
    destruct (existsb (Contains u) (BlacklistedURLs cfg)); [reflexivity|].
    now destruct (url_ParseRequestURI u).
Qed.

Lemma accept_admissible u s :
  accept cfg u s = true -> admissible cfg u = true.
Proof. rewrite accept_split. now intros [Ha _]%andb_true_iff. Qed.

Lemma Forall_accept_admissible s out :
  Forall (fun u => accept cfg u s = true) out ->
  Forall (fun u => admissible cfg u = true) out.
Proof.
  intros Ho. eapply Forall_impl; [exact Ho|].
  intros u. apply accept_admissible.
Qed.

(** What one visit leaves behind, by the way it ends: the queue loses the
    target and gains admissible links; a visit that reaches the recursive
    call logged a successful fetch and a sleep, a visit that returns
    logged a failed fetch, a visit that panics logged nothing or a
    successful fetch. *)
Lemma visit_outcome ctx s :
  (len (links s) =? 0) = false ->
  exists idx out evs,
    0 <= idx < len (links s) /\
    Forall (fun u => admissible cfg u = true) out /\
    links (final (visit cfg ctx s))
    = delete (Z.to_nat idx) (links s) ++ out /\
    events (final (visit cfg ctx s)) = events s ++ evs /\
    match visit cfg ctx s with
    | Done true _ =>
        exists d,
          evs = [EvFetch Walk (index (links s) idx) (clock s) true;
                 EvSleep d]
    | Done false _ =>
        evs = [EvFetch Walk (index (links s) idx) (clock s) false]
    | Panic _ =>
        evs = [] \/
        evs = [EvFetch Walk (index (links s) idx) (clock s) true]
    | More _ => False
    end.
Proof.
  intros Hne. apply Z.eqb_neq in Hne.
  unfold visit, mbind, M_bind, modify, mret, M_ret.
  destruct (Intn_cases (len (links s)) s) as [[Hn _]|[_ (idx & r & Hi & ->)]];
    [unfold len in *; lia|].
  cbv beta iota zeta.
  set (target := index (links s) idx).
  match goal with
  | |- context [fetch cfg Walk ctx ?raw ?st] =>
      destruct (fetch_cases Walk ctx raw st)
        as [[Hua ->]|(body & err & r2 & d & Hd & ->)]
  end.
  - exists idx, [], []. cbn [final]. state_fields. rewrite !app_nil_r.
    repeat split; try lia; auto.
  - cbv beta iota zeta. destruct err as [e|]; cbn [noError].
    + exists idx, [], [EvFetch Walk target (clock s) false].
      cbn [final]. state_fields. rewrite !app_nil_r.
      repeat split; try lia; auto.
    + match goal with
      | |- context [extractLinks cfg ?b ?base ?st] =>
          destruct (extractLinks_cases b base st)
            as [->|(out & -> & Hout)]
      end.
      * exists idx, [], [EvFetch Walk target (clock s) true].
        cbn [final]. state_fields. rewrite !app_nil_r.
        repeat split; try lia; auto.
      * apply Forall_accept_admissible in Hout.
        cbv beta iota zeta.
        match goal with
        | |- context [jitter cfg ?st] =>
            destruct (jitter_cases st) as [[Hn ->]|(v & r3 & Hv & ->)]
        end.
        -- exists idx, out, [EvFetch Walk target (clock s) true].
           cbn [final]. state_fields.
           repeat split; try lia; auto.
        -- exists idx, out,
             [EvFetch Walk target (clock s) true;
              EvSleep (wrap64 (wrap64 (v + MinSleep cfg) * Microsecond))].
           cbv zeta. cbn [final]. state_fields. rewrite <- app_assoc.
           repeat split; try lia; auto.
           eexists. reflexivity.
Qed.

(** What the head of an iteration leaves behind, by the way it ends: a
    head that reaches the walk seeded a non-empty queue of accepted links
    after a successful root fetch; a head that goes back to the guard
    logged one root fetch; a head that panics logged nothing or a
    successful root fetch. *)
Lemma seed_outcome ctx s :
  exists evs,
    events (final (seed cfg ctx s)) = events s ++ evs /\
    visited (final (seed cfg ctx s)) = visited s /\
    match seed cfg ctx s with
    | Done true s1 =>
        links s1 <> [] /\
        Forall (fun u => accept cfg u s = true) (links s1) /\
        exists root,
          In root (RootURLs cfg) /\ evs = [EvFetch Root root (clock s) true]
    | Done false _ =>
        exists root ok,
          In root (RootURLs cfg) /\ evs = [EvFetch Root root (clock s) ok]
    | Panic _ =>
        evs = [] \/
        exists root,
          In root (RootURLs cfg) /\ evs = [EvFetch Root root (clock s) true]
    | More _ => False
    end.
Proof.
  unfold seed, mbind, M_bind, modify, mret, M_ret.
  destruct (Intn_cases (len (RootURLs cfg)) s)
    as [[Hn ->]|[_ (i & r & Hi & ->)]].
  - exists []. cbn [final]. rewrite app_nil_r. auto.
  - cbv beta iota zeta.
    pose proof (index_In _ _ Hi) as Hroot.
    set (root := index (RootURLs cfg) i) in *.
    match goal with
    | |- context [fetch cfg Root ctx ?raw ?st] =>
        destruct (fetch_cases Root ctx raw st)
          as [[Hua ->]|(body & err & r2 & d & Hd & ->)]
    end.
    + exists []. cbn [final]. state_fields. rewrite app_nil_r. auto.
    + cbv beta iota zeta. destruct err as [e|]; cbn [noError].
      * exists [EvFetch Root root (clock s) false].
        cbn [final]. state_fields. repeat split. now exists root, false.
      * match goal with
        | |- context [extractLinks cfg ?b ?base ?st] =>
            destruct (extractLinks_cases b base st)
              as [->|(out & -> & Hout)]
        end.
        -- exists [EvFetch Root root (clock s) true].
           cbn [final]. state_fields. repeat split. right. now exists root.
        -- exists [EvFetch Root root (clock s) true].
           cbv beta iota zeta.
           destruct (Z.eqb_spec (len out) 0) as [Hz|Hz]; cbn [negb final];
             state_fields; repeat split.
           ++ now exists root, true.
           ++ intros ->. now apply Hz.
           ++ eapply Forall_impl; [exact Hout|]. intros u Hu.
              cbv beta in Hu. rewrite accept_split in Hu.
              rewrite accept_split. exact Hu.
           ++ now exists root.
Qed.


(** *** The shape and the length of the log *)

Lemma fetches_app l1 l2 : fetches (l1 ++ l2) = fetches l1 ++ fetches l2.
Proof.
  induction l1 as [|[site url t ok|d] l1 IH]; cbn [app fetches];
    [reflexivity| |exact IH].
  now rewrite IH.
Qed.

Lemma guard_depth ctx depth s :
  guard cfg ctx depth s = false -> depth < MaxDepth cfg.
Proof.
  unfold guard. intros Hg.
  apply orb_false_iff in Hg as [Hg _]. apply orb_false_iff in Hg as [Hg _].
  now apply Z.leb_gt in Hg.
Qed.

Lemma depthFirst_fuel_log fuel ctx depth s :
  exists evs,
    events (final (depthFirst_fuel cfg fuel ctx depth s)) = events s ++ evs /\
    walkLog evs /\
    (length (fetches evs) <= Z.to_nat (MaxDepth cfg - depth))%nat.
Proof.
  revert depth s. induction fuel as [|fuel IH]; intros depth s;
    rewrite depthFirst_fuel_eq;
    (destruct (guard cfg ctx depth s) eqn:Hg;
       [exists []; rewrite app_nil_r; repeat split; [constructor|cbn; lia]|]);
    (destruct (len (links s) =? 0) eqn:Hl;
       [exists []; rewrite app_nil_r; repeat split; [constructor|cbn; lia]|]);
    apply guard_depth in Hg;
    destruct (visit_outcome ctx s Hl)
      as (idx & out & evs & _ & _ & _ & He & Hm);
    destruct (visit cfg ctx s) as [[] s1|s1|s1]; cbn [final] in *;
    try contradiction.
  - destruct Hm as [d ->]. eexists. split; [exact He|].
    split; [repeat constructor|cbn; lia].
  - subst evs. eexists. split; [exact He|].
    split; [constructor|cbn; lia].
  - destruct Hm as [->| ->]; eexists; (split; [exact He|]);
      (split; [constructor|cbn; lia]).
  - destruct Hm as [d ->].
    destruct (IH (depth + 1) s1) as (evs2 & He2 & Hw2 & Hc2).
    exists ([EvFetch Walk (index (links s) idx) (clock s) true; EvSleep d]
              ++ evs2).
    rewrite He2, He, <- app_assoc. split; [reflexivity|].
    split; [now constructor|]. cbn [app fetches length]. lia.
  - subst evs. eexists. split; [exact He|].
    split; [constructor|cbn; lia].
  - destruct Hm as [->| ->]; eexists; (split; [exact He|]);
      (split; [constructor|cbn; lia]).
Qed.

(** X1. One walk: whatever the depth, the state and the context,
    depthFirst returns or panics; its log is a run of successful
    fetch-and-sleep pairs that ends at the first fetch that fails (no
    retry, no other link tried); and it makes at most MaxDepth - depth
    fetches. *)
Theorem walk_log ctx depth s :
  (forall s', depthFirst cfg ctx depth s <> More s') /\
  exists evs,
    events (final (depthFirst cfg ctx depth s)) = events s ++ evs /\
    walkLog evs /\
    (length (fetches evs) <= Z.to_nat (MaxDepth cfg - depth))%nat.
Proof.
  split; [apply depthFirst_total|apply depthFirst_fuel_log].
Qed.

Lemma Crawl_loop_log fuel ctx s :
  exists evs,
    events (final (Crawl_loop cfg fuel ctx s)) = events s ++ evs /\
    crawlLog evs /\
    (length (fetches evs) <= fuel * (1 + Z.to_nat (MaxDepth cfg)))%nat.
Proof.
  revert s. induction fuel as [|fuel IH]; intros s.
  { exists []. cbn [Crawl_loop final]. rewrite app_nil_r.
    repeat split; [constructor|cbn; lia]. }
  rewrite Crawl_loop_eq.
  destruct (_ || _).
  { exists []. cbn [final]. rewrite app_nil_r.
    repeat split; [constructor|cbn; lia]. }
  destruct (seed_outcome ctx s) as (evs0 & He0 & _ & Hm).
  destruct (seed cfg ctx s) as [[] s1|s1|s1]; cbn [final] in *;
    try contradiction.
  - destruct Hm as (_ & _ & root & _ & ->).
    destruct (depthFirst_fuel_log (Z.to_nat (MaxDepth cfg - 0)) ctx 0 s1)
      as (evsw & Hew & Hw & Hcw).
    fold (depthFirst cfg ctx 0 s1) in Hew.
    replace (MaxDepth cfg - 0) with (MaxDepth cfg) in Hcw by lia.
    destruct (depthFirst cfg ctx 0 s1) as [[] s2|s2|s2]; cbn [final] in *.
    + destruct (IH s2) as (evs' & He' & Hc' & Hn').
      exists (EvFetch Root root (clock s) true :: evsw ++ evs').
      rewrite He', Hew, He0, <- !app_assoc. split; [reflexivity|].
      split; [now constructor|].
      cbn [fetches length]. rewrite fetches_app, length_app. lia.
    + exists (EvFetch Root root (clock s) true :: evsw ++ []).
      rewrite app_nil_r, Hew, He0, <- app_assoc. split; [reflexivity|].
      split; [rewrite <- (app_nil_r evsw); constructor; [exact Hw|constructor]|].
      cbn [fetches length]. lia.
    + exists (EvFetch Root root (clock s) true :: evsw ++ []).
      rewrite app_nil_r, Hew, He0, <- app_assoc. split; [reflexivity|].
      split; [rewrite <- (app_nil_r evsw); constructor; [exact Hw|constructor]|].
      cbn [fetches length]. lia.
  - destruct Hm as (root & ok & _ & ->).
    destruct (IH s1) as (evs' & He' & Hc' & Hn').
    exists (EvFetch Root root (clock s) ok :: evs').
    rewrite He', He0, <- app_assoc. split; [reflexivity|].
    split; [now constructor|]. cbn [fetches length]. lia.
  - destruct Hm as [->|(root & _ & ->)]; eexists; (split; [exact He0|]);
      (split; [repeat constructor|cbn [fetches length]; lia]).
Qed.

(** X2. One session: the log of Crawl is a sequence of iterations, each a
    root fetch followed, only when it succeeded, by the log of one walk;
    and [n] iterations of the outer loop make at most n * (1 + MaxDepth)
    fetches. *)
Theorem session_log fuel ctx s :
  exists evs,
    events (final (Crawl cfg fuel ctx s)) = events s ++ evs /\
    crawlLog evs /\
    (length (fetches evs) <= fuel * (1 + Z.to_nat (MaxDepth cfg)))%nat.
Proof.
  rewrite Crawl_final.
  exact (Crawl_loop_log fuel ctx (set_startTime (clock s) s)).
Qed.


(** *** When Crawl returns *)

Lemma Crawl_loop_done fuel ctx s s' :
  Crawl_loop cfg fuel ctx s = Done tt s' ->
  stopAt cfg ctx (startTime s') (clock s') = true.
Proof.
  revert s. induction fuel as [|fuel IH]; intros s; [discriminate|].
  rewrite Crawl_loop_eq, stop_check.
  destruct (stopAt cfg ctx (startTime s) (clock s)) eqn:Hg.
  - now intros [= <-].
  - destruct (seed cfg ctx s) as [[] s1|s1|s1]; try discriminate.
    + destruct (depthFirst cfg ctx 0 s1) as [[] s2|s2|s2]; try discriminate.
      apply IH.
    + apply IH.
Qed.

(** X3. Crawl returns only at a guard that fires: in the state it returns
    in, the context is cancelled or the timeout has elapsed.  Reaching
    MaxDepth ends a walk, not the session: with Timeout = 0 and a context
    that is never cancelled, Crawl does not return after any number of
    iterations. *)
Theorem Crawl_returns_only_stopped fuel ctx s :
  (forall s', Crawl cfg fuel ctx s = Done tt s' ->
              stopAt cfg ctx (startTime s') (clock s') = true) /\
  (Timeout cfg = 0 -> doneAt ctx = None ->
   is_done (Crawl cfg fuel ctx s) = false).
Proof.
  assert (Hd : forall s', Crawl cfg fuel ctx s = Done tt s' ->
                          stopAt cfg ctx (startTime s') (clock s') = true).
  { intros s'. unfold Crawl, mbind, M_bind, modify. apply Crawl_loop_done. }
  split; [exact Hd|].
  intros Ht Hc. destruct (Crawl cfg fuel ctx s) as [[] s'| |] eqn:E;
    [|reflexivity..].
  specialize (Hd s' eq_refl).
  unfold stopAt, cancelledAt, timedOutAt in Hd. rewrite Hc, Ht in Hd.
  discriminate.
Qed.

(** *** Panics *)

Lemma fetch_outcome site ctx raw s :
  match fetch cfg site ctx raw s with
  | Done (_, err) _ => err = None -> is_Some (NewRequest raw)
  | Panic s' => s' = s /\ UserAgents cfg = [] /\ is_Some (NewRequest raw)
  | More _ => False
  end.
Proof.
  unfold fetch, mbind, M_bind, gets, modify, mret, M_ret.
  destruct (NewRequest raw) as [req|]; [|discriminate].
  destruct (Intn_cases (len (UserAgents cfg)) s)
    as [[Hn ->]|[_ (v & r & _ & ->)]].
  - repeat split; [|eauto]. unfold len in Hn.
    destruct (UserAgents cfg); [reflexivity|simpl in Hn; lia].
  - cbv beta iota zeta.
    destruct (client_Do ctx req _ _) as [[e|resp] d]; [discriminate|].
    destruct (ReadAll_Limit _ resp) as [body err]. eauto.
Qed.

(** X6. fetch panics exactly when the pool of user agents is empty and
    the request can be built (a URL whose request cannot be built yields
    an error before the pool is consulted); it panics before any effect;
    and however it ends it leaves the queue, the visited set and the start
    time alone and never sets the clock back. *)
Theorem fetch_panics_iff site ctx raw s :
  ((exists s', fetch cfg site ctx raw s = Panic s') <->
   UserAgents cfg = [] /\ is_Some (NewRequest raw)) /\
  (forall s', fetch cfg site ctx raw s = Panic s' -> s' = s) /\
  (let s1 := final (fetch cfg site ctx raw s) in
   links s1 = links s /\ visited s1 = visited s /\
   startTime s1 = startTime s /\ clock s <= clock s1).
Proof.
  pose proof (fetch_outcome site ctx raw s) as Ho.
  split; [|split].
  - split.
    + intros [s' E]. rewrite E in Ho. tauto.
    + intros [Hua Hreq].
      destruct (fetch_cases site ctx raw s)
        as [[_ E]|(body & err & r & d & _ & E)]; [eauto|].
      exfalso. clear Ho. revert E.
      unfold fetch, mbind, M_bind, gets, modify, mret, M_ret.
      destruct Hreq as [req ->]. unfold Intn, len. rewrite Hua.
      discriminate.
  - intros s' E. rewrite E in Ho. tauto.
  - cbv zeta.
    destruct (fetch_cases site ctx raw s)
      as [[_ ->]|(body & err & r & d & Hd & ->)]; cbn [final]; state_fields.
    + repeat split; lia.
    + repeat split; lia.
Qed.

Section ValidConfig.
Hypothesis Hroots : RootURLs cfg <> [].
Hypothesis Hua : UserAgents cfg <> [].
Hypothesis Hspan : 0 < wrap64 (wrap64 (MaxSleep cfg - MinSleep cfg) + 1).
Hypothesis Hreq :
  forall raw req, NewRequest raw = Some req -> is_Some (url_Parse raw).

Lemma fetch_done site ctx raw s :
  exists body err s1,
    fetch cfg site ctx raw s = Done (body, err) s1 /\
    (err = None -> is_Some (url_Parse raw)).
Proof.
  pose proof (fetch_outcome site ctx raw s) as Ho.
  destruct (fetch cfg site ctx raw s) as [[body err] s1|s1|s1];
    [|tauto..].
  exists body, err, s1. split; [reflexivity|].
  intros He. destruct (Ho He) as [req Hr]. eapply Hreq, Hr.
Qed.

Lemma jitter_done s : exists s1, jitter cfg s = Done tt s1.
Proof.
  destruct (jitter_cases s) as [[Hn _]|(r & rnd & _ & ->)]; [lia|eauto].
Qed.

Lemma visit_done ctx s :
  (len (links s) =? 0) = false -> exists b s1, visit cfg ctx s = Done b s1.
Proof.
  intros Hne. apply Z.eqb_neq in Hne.
  unfold visit, mbind, M_bind, modify, mret, M_ret.
  destruct (Intn_cases (len (links s)) s) as [[Hn _]|[_ (idx & r & _ & ->)]];
    [unfold len in *; lia|].
  cbv beta iota zeta.
  match goal with
  | |- context [fetch cfg Walk ctx ?raw ?st] =>
      destruct (fetch_done Walk ctx raw st)
        as (body & [e|] & s1 & -> & Hp); [eauto|]
  end.
  destruct (Hp eq_refl) as [b Hb].
  rewrite (extractLinks_Some _ _ b _ Hb). cbv beta iota zeta.
  match goal with
  | |- context [jitter cfg ?st] => destruct (jitter_done st) as [s2 ->]
  end.
  eauto.
Qed.

Lemma seed_done ctx s : exists b s1, seed cfg ctx s = Done b s1.
Proof.
  unfold seed, mbind, M_bind, modify, mret, M_ret.
  destruct (Intn_cases (len (RootURLs cfg)) s)
    as [[Hn _]|[_ (i & r & _ & ->)]].
  { unfold len in Hn. destruct (RootURLs cfg); [congruence|simpl in Hn; lia]. }
  cbv beta iota zeta.
  match goal with
  | |- context [fetch cfg Root ctx ?raw ?st] =>
      destruct (fetch_done Root ctx raw st)
        as (body & [e|] & s1 & -> & Hp); [eauto|]
  end.
  destruct (Hp eq_refl) as [b Hb].
  rewrite (extractLinks_Some _ _ b _ Hb). eauto.
Qed.

Lemma depthFirst_fuel_no_panic fuel ctx depth s :
  forall s', depthFirst_fuel cfg fuel ctx depth s <> Panic s'.
Proof.
  revert depth s. induction fuel as [|fuel IH]; intros depth s s';
    rewrite depthFirst_fuel_eq;
    (destruct (guard cfg ctx depth s); [discriminate|]);
    (destruct (len (links s) =? 0) eqn:Hl; [discriminate|]);
    destruct (visit_done ctx s Hl) as ([] & s1 & ->); try discriminate.
  apply IH.
Qed.

Lemma Crawl_loop_no_panic fuel ctx s :
  forall s', Crawl_loop cfg fuel ctx s <> Panic s'.
Proof.
  revert s. induction fuel as [|fuel IH]; intros s s'; [discriminate|].
  rewrite Crawl_loop_eq. destruct (_ || _); [discriminate|].
  destruct (seed_done ctx s) as ([] & s1 & ->); [|apply IH].
  pose proof (depthFirst_fuel_no_panic
                (Z.to_nat (MaxDepth cfg - 0)) ctx 0 s1) as Hw.
  fold (depthFirst cfg ctx 0 s1) in Hw.
  destruct (depthFirst cfg ctx 0 s1) as [[] s2|s2|s2];
    [apply IH|now destruct (Hw s2)|discriminate].
Qed.
End ValidConfig.

(** X4. A valid configuration never panics: with at least one root URL
    and one user agent, a sleep span MaxSleep - MinSleep + 1 that is
    positive as a 64-bit integer, and an HTTP library that builds a
    request only for a URL that parses, neither a walk nor a session ever
    panics. *)
Theorem valid_config_no_panic
        (Hroots : RootURLs cfg <> [])
        (Hua : UserAgents cfg <> [])
        (Hspan : 0 < wrap64 (wrap64 (MaxSleep cfg - MinSleep cfg) + 1))
        (Hreq : forall raw req,
            NewRequest raw = Some req -> is_Some (url_Parse raw)) :
  forall fuel ctx depth s s',
    Crawl cfg fuel ctx s <> Panic s' /\
    depthFirst cfg ctx depth s <> Panic s'.
Proof.
  intros fuel ctx depth s s'. split.
  - unfold Crawl, mbind, M_bind, modify.
    now apply Crawl_loop_no_panic.
  - now apply depthFirst_fuel_no_panic.
Qed.

(** X5. Without root URLs the root selection faults: an iteration of the
    outer loop that is not stopped panics before any fetch. *)
Theorem empty_roots_panic fuel ctx s
        (Hroots : RootURLs cfg = [])
        (Hgo : stopAt cfg ctx (clock s) (clock s) = false) :
  Crawl cfg (S fuel) ctx s = Panic (set_startTime (clock s) s).
Proof.
  unfold Crawl, mbind at 1, M_bind at 1, modify.
  cbn [Crawl_loop]. rewrite stop_check. cbn [startTime clock set_startTime].
  rewrite Hgo. unfold mbind, M_bind, Intn, len. rewrite Hroots. reflexivity.
Qed.


(** *** Inverted sleep bounds *)

Lemma visit_true_jitter ctx s s1 :
  visit cfg ctx s = Done true s1 -> exists st, jitter cfg st = Done tt s1.
Proof.
  unfold visit, mbind, M_bind, modify, mret, M_ret.
  destruct (Intn (len (links s)) s) as [idx s0|s0|s0]; [|discriminate..].
  cbv beta iota zeta.
  destruct (fetch cfg Walk ctx _ _) as [[body [e|]] s2|s2|s2];
    try discriminate.
  destruct (extractLinks cfg body _ s2) as [out s3|s3|s3]; try discriminate.
  match goal with
  | |- context [jitter cfg ?st] =>
      destruct (jitter cfg st) as [[] s4|s4|s4] eqn:Ej; try discriminate
  end.
  intros [= <-]. eauto.
Qed.

(** X7. With MaxSleep < MinSleep (and a difference that fits in 64 bits)
    the jitter sleep panics in every state; so a walk returns only when
    it fetched nothing or its one fetch failed, and never sleeps: the
    first successful visit of a walk is a panic. *)
Theorem inverted_sleep_bounds_panic
        (Hlt : MaxSleep cfg < MinSleep cfg)
        (Hfit : minInt64 <= MaxSleep cfg - MinSleep cfg) :
  (forall s, jitter cfg s = Panic s) /\
  (forall ctx depth s,
      match depthFirst cfg ctx depth s with
      | Done _ s' =>
          events s' = events s \/
          exists url t, events s' = events s ++ [EvFetch Walk url t false]
      | Panic _ => True
      | More _ => False
      end).
Proof.
  assert (Hj : forall s, jitter cfg s = Panic s).
  { intros s. destruct (jitter_cases s) as [[_ E]|(r & rnd & Hr & _)];
      [exact E|exfalso].
    rewrite (wrap64_id (MaxSleep cfg - MinSleep cfg)) in Hr
      by (unfold is_int64, minInt64, maxInt64 in *; lia).
    rewrite wrap64_id in Hr
      by (unfold is_int64, minInt64, maxInt64 in *; lia).
    lia. }
  split; [exact Hj|].
  intros ctx depth s. unfold depthFirst. rewrite depthFirst_fuel_eq.
  destruct (guard cfg ctx depth s); [now left|].
  destruct (len (links s) =? 0) eqn:Hl; [now left|].
  destruct (visit_outcome ctx s Hl)
    as (idx & out & evs & _ & _ & _ & He & Hm).
  destruct (visit cfg ctx s) as [[] s1|s1|s1] eqn:Ev; cbn [final] in *;
    try exact I; try contradiction.
  - apply visit_true_jitter in Ev as [st Est]. rewrite Hj in Est.
    discriminate.
  - right. subst evs. eauto.
Qed.

(** *** What the walk fetches *)

Lemma Forall_delete_links (P : string -> Prop) i (l : list string) :
  Forall P l -> Forall P (delete i l).
Proof.
  revert i. induction l as [|x l IH]; intros i Hl; [now destruct i|].
  inversion Hl as [|? ? Hx Hr]; subst.
  destruct i as [|i]; [exact Hr|].
  change (delete (S i) (x :: l)) with (x :: delete i l).
  constructor; [exact Hx|now apply IH].
Qed.

Lemma Forall_index (P : string -> Prop) (l : list string) i :
  0 <= i < len l -> Forall P l -> P (index l i).
Proof.
  intros Hi Hl. rewrite List.Forall_forall in Hl.
  now apply Hl, index_In.
Qed.

Lemma depthFirst_fuel_admissible fuel ctx depth s :
  Forall (fun u => admissible cfg u = true) (links s) ->
  exists evs,
    events (final (depthFirst_fuel cfg fuel ctx depth s)) = events s ++ evs /\
    Forall (walkAdmissible cfg) evs.
Proof.
  revert depth s. induction fuel as [|fuel IH]; intros depth s Hq;
    rewrite depthFirst_fuel_eq;
    (destruct (guard cfg ctx depth s);
       [exists []; rewrite app_nil_r; split; [reflexivity|constructor]|]);
    (destruct (len (links s) =? 0) eqn:Hl;
       [exists []; rewrite app_nil_r; split; [reflexivity|constructor]|]);
    destruct (visit_outcome ctx s Hl)
      as (idx & out & evs & Hi & Hout & Hlinks & He & Hm);
    pose proof (Forall_index _ _ _ Hi Hq) as Ht;
    destruct (visit cfg ctx s) as [[] s1|s1|s1]; cbn [final] in *;
    try contradiction.
  - destruct Hm as [d ->]. eexists. split; [exact He|].
    repeat constructor. exact Ht.
  - subst evs. eexists. split; [exact He|]. repeat constructor. exact Ht.
  - destruct Hm as [->| ->]; eexists; (split; [exact He|]);
      repeat constructor; exact Ht.
  - destruct Hm as [d ->].
    destruct (IH (depth + 1) s1) as (evs2 & He2 & Hw2).
    { rewrite Hlinks. apply Forall_app. split; [|exact Hout].
      now apply Forall_delete_links. }
    eexists. rewrite He2, He, <- app_assoc. split; [reflexivity|].
    cbn [app]. repeat constructor; [exact Ht|exact Hw2].
  - subst evs. eexists. split; [exact He|]. repeat constructor. exact Ht.
  - destruct Hm as [->| ->]; eexists; (split; [exact He|]);
      repeat constructor; exact Ht.
Qed.

Lemma Crawl_loop_admissible fuel ctx s :
  exists evs,
    events (final (Crawl_loop cfg fuel ctx s)) = events s ++ evs /\
    Forall (walkAdmissible cfg) evs /\ Forall (rootConfigured cfg) evs.
Proof.
  revert s. induction fuel as [|fuel IH]; intros s.
  { exists []. cbn [Crawl_loop final]. rewrite app_nil_r.
    repeat split; constructor. }
  rewrite Crawl_loop_eq.
  destruct (_ || _).
  { exists []. cbn [final]. rewrite app_nil_r. repeat split; constructor. }
  destruct (seed_outcome ctx s) as (evs0 & He0 & _ & Hm).
  destruct (seed cfg ctx s) as [[] s1|s1|s1]; cbn [final] in *;
    try contradiction.
  - destruct Hm as (_ & Hq & root & Hroot & ->).
    apply Forall_accept_admissible in Hq.
    destruct (depthFirst_fuel_admissible
                (Z.to_nat (MaxDepth cfg - 0)) ctx 0 s1 Hq)
      as (evsw & Hew & Hw).
    fold (depthFirst cfg ctx 0 s1) in Hew.
    assert (Hwr : Forall (rootConfigured cfg) evsw).
    { destruct (depthFirst_fuel_log (Z.to_nat (MaxDepth cfg - 0)) ctx 0 s1)
        as (evsw' & Hew' & Hlog & _).
      fold (depthFirst cfg ctx 0 s1) in Hew'.
      rewrite Hew in Hew'. apply app_inv_head in Hew'. subst evsw'.
      clear -Hlog. induction Hlog; repeat constructor. exact IHHlog. }
    assert (H0 : Forall (walkAdmissible cfg)
                   [EvFetch Root root (clock s) true] /\
                 Forall (rootConfigured cfg) [EvFetch Root root (clock s) true])
      by (split; repeat constructor; exact Hroot).
    destruct H0 as [Ha0 Hr0].
    destruct (depthFirst cfg ctx 0 s1) as [[] s2|s2|s2]; cbn [final] in *.
    + destruct (IH s2) as (evs' & He' & Ha' & Hr').
      exists ([EvFetch Root root (clock s) true] ++ evsw ++ evs').
      rewrite He', Hew, He0, <- !app_assoc. split; [reflexivity|].
      split; repeat (apply Forall_app; split); assumption.
    + exists ([EvFetch Root root (clock s) true] ++ evsw).
      rewrite Hew, He0, <- app_assoc. split; [reflexivity|].
      split; apply Forall_app; split; assumption.
    + exists ([EvFetch Root root (clock s) true] ++ evsw).
      rewrite Hew, He0, <- app_assoc. split; [reflexivity|].
      split; apply Forall_app; split; assumption.
  - destruct Hm as (root & ok & Hroot & ->).
    destruct (IH s1) as (evs' & He' & Ha' & Hr').
    exists ([EvFetch Root root (clock s) ok] ++ evs').
    rewrite He', He0, <- app_assoc. split; [reflexivity|].
    split; apply Forall_app; split; try assumption;
      repeat constructor; exact Hroot.
  - destruct Hm as [->|(root & Hroot & ->)]; eexists;
      (split; [exact He0|]); split; repeat constructor; exact Hroot.
Qed.

(** X8. What a session fetches: every root fetch is of a configured root
    URL, and every URL the walk fetches is not empty, contains no
    blacklist entry and is a request URI, whatever queue the session
    started with (a walk by itself keeps this for a queue that has it). *)
Theorem fetched_urls :
  (forall ctx depth s,
      Forall (fun u => admissible cfg u = true) (links s) ->
      exists evs,
        events (final (depthFirst cfg ctx depth s)) = events s ++ evs /\
        Forall (walkAdmissible cfg) evs) /\
  (forall fuel ctx s,
   exists evs,
     events (final (Crawl cfg fuel ctx s)) = events s ++ evs /\
     Forall (walkAdmissible cfg) evs /\ Forall (rootConfigured cfg) evs).
Proof.
  split.
  - intros ctx depth s. apply depthFirst_fuel_admissible.
  - intros fuel ctx s. rewrite Crawl_final.
    exact (Crawl_loop_admissible fuel ctx (set_startTime (clock s) s)).
Qed.

(** X9. The head of an iteration rebuilds the queue: when it hands over
    to the walk, whatever the queue held before, the queue is not empty
    and every URL in it passes the filter in the current state, so none
    of them is visited; and the visited set is as it was. *)
Theorem walk_starts_clean ctx s s1 (Hseed : seed cfg ctx s = Done true s1) :
  links s1 <> [] /\
  Forall (fun u => accept cfg u s1 = true) (links s1) /\
  Forall (fun u => u ∉ visited s1) (links s1) /\
  visited s1 = visited s.
Proof.
  destruct (seed_outcome ctx s) as (evs & _ & Hv & Hm).
  rewrite Hseed in Hv, Hm. cbn [final] in Hv.
  destruct Hm as (Hne & Hq & _).
  assert (Hq1 : Forall (fun u => accept cfg u s1 = true) (links s1)).
  { eapply Forall_impl; [exact Hq|]. intros u Hu.
    cbv beta in Hu. rewrite accept_split in Hu.
    rewrite accept_split, Hv. exact Hu. }
  repeat split; [exact Hne|exact Hq1| |exact Hv].
  eapply Forall_impl; [exact Hq1|]. intros u. apply accept_not_visited.
Qed.

(** *** The filter over a session *)

Lemma accept_antitone u s s' :
  visited s ⊆ visited s' -> accept cfg u s' = true -> accept cfg u s = true.
Proof.
  intros Hsub. rewrite !accept_split. intros [Ha Hv]%andb_true_iff.
  rewrite Ha. cbn [andb].
  destruct (bool_decide_reflect (u ∈ visited s)) as [Hin|]; [|reflexivity].
  apply Hsub in Hin.
  destruct (bool_decide_reflect (u ∈ visited s')); [discriminate|contradiction].
Qed.

(** X10. Rejection is final: a URL the filter accepts after a walk, or
    after any number of iterations of a session, it accepted before; so a
    candidate once rejected stays rejected for the rest of the session. *)
Theorem rejection_is_final u :
  (forall ctx depth s,
      0 <= depth ->
      accept cfg u (final (depthFirst cfg ctx depth s)) = true ->
      accept cfg u s = true) /\
  (forall fuel ctx s,
      accept cfg u (final (Crawl cfg fuel ctx s)) = true ->
      accept cfg u s = true).
Proof.
  split.
  - intros ctx depth s Hd. apply accept_antitone.
    apply (depthFirst_inv ctx notReenqueued notReenqueued_refl
             notReenqueued_trans
             (fun d s0 _ _ => visit_notReenqueued ctx s0) depth s Hd).
  - intros fuel ctx s. rewrite Crawl_final. intros Ha.
    change (accept cfg u (set_startTime (clock s) s) = true).
    eapply accept_antitone; [|exact Ha].
    apply (Crawl_loop_inv ctx notReenqueued notReenqueued_refl
             notReenqueued_trans
             (fun d s0 _ _ => visit_notReenqueued ctx s0)
             (fun s0 _ => seed_notReenqueued ctx s0)
             fuel (set_startTime (clock s) s)).
Qed.

(** *** A timeout that is negative as a duration *)

(** X11. A non-zero Timeout whose product with time.Second is negative
    as a 64-bit duration (a negative Timeout, or one so large that the
    product wraps around) has elapsed from the start: Crawl returns at its
    first guard, without any fetch. *)
Theorem negative_timeout_stops_at_once fuel ctx s
        (Hnz : Timeout cfg <> 0)
        (Hneg : wrap64 (Timeout cfg * Second) < 0) :
  Crawl cfg (S fuel) ctx s = Done tt (set_startTime (clock s) s).
Proof.
  unfold Crawl, mbind, M_bind, modify. rewrite Crawl_loop_eq.
  assert (Ht : isTimeoutReached cfg (set_startTime (clock s) s) = true).
  { unfold isTimeoutReached. cbn [startTime clock set_startTime].
    destruct (Z.eqb_spec (Timeout cfg) 0); [contradiction|].
    rewrite Z.sub_diag. apply Z.ltb_lt. exact Hneg. }
  rewrite Ht, orb_true_r. reflexivity.
Qed.


(** *** The clock of a session *)

Lemma fetchedWithin_wider t0 t1 t0' t1' e :
  t0' <= t0 -> t1 <= t1' -> fetchedWithin t0 t1 e -> fetchedWithin t0' t1' e.
Proof. destruct e; cbn; [lia|auto]. Qed.

Lemma inSpan_refl s : inSpan s s.
Proof.
  split; [reflexivity|]. split; [lia|]. exists [].
  rewrite app_nil_r. split; [reflexivity|constructor].
Qed.

Lemma inSpan_trans a b c : inSpan a b -> inSpan b c -> inSpan a c.
Proof.
  intros (S1 & C1 & e1 & E1 & F1) (S2 & C2 & e2 & E2 & F2).
  split; [congruence|]. split; [lia|]. exists (e1 ++ e2).
  rewrite E2, E1, app_assoc. split; [reflexivity|].
  apply Forall_app. split.
  - eapply Forall_impl; [exact F1|]. intros e.
    apply fetchedWithin_wider; lia.
  - eapply Forall_impl; [exact F2|]. intros e.
    apply fetchedWithin_wider; lia.
Qed.

Lemma visit_inSpan ctx s :
  (len (links s) =? 0) = false -> inSpan s (final (visit cfg ctx s)).
Proof.
  intros Hl. destruct (visit_spec ctx s Hl)
    as (idx & rnd & t' & out & evs & _ & Ht & Hlog & _ & ->).
  split; [reflexivity|]. split; [exact Ht|]. exists evs.
  split; [reflexivity|]. cbn [clock].
  destruct Hlog; repeat constructor; cbn; lia.
Qed.

Lemma seed_inSpan ctx s : inSpan s (final (seed cfg ctx s)).
Proof.
  destruct (seed_spec ctx s)
    as (rnd & t' & l & evs & Ht & Hlog & _ & _ & ->).
  split; [reflexivity|]. split; [exact Ht|]. exists evs.
  split; [reflexivity|]. cbn [clock].
  destruct Hlog; repeat constructor; cbn; lia.
Qed.

(** X13. The clock of a session: Crawl records the time of the call as
    start time once, and no iteration or walk resets it (the timeout runs
    from the call); the clock never goes back; and every fetch of the
    session starts between the call and the end of the session. *)
Theorem session_span fuel ctx s :
  let s' := final (Crawl cfg fuel ctx s) in
  startTime s' = clock s /\
  clock s <= clock s' /\
  exists evs,
    events s' = events s ++ evs /\
    Forall (fetchedWithin (clock s) (clock s')) evs.
Proof.
  cbv zeta. rewrite Crawl_final.
  exact (Crawl_loop_inv ctx inSpan inSpan_refl inSpan_trans
           (fun d s0 _ _ => visit_inSpan ctx s0)
           (fun s0 _ => seed_inSpan ctx s0)
           fuel (set_startTime (clock s) s)).
Qed.

(** *** extractLinks with any base *)

(** X14. extractLinks only reads the crawler: whatever the body and the
    base, and however it ends, the state is as it was; it never runs on;
    every link it returns passes the filter; and it can panic only when
    the base does not parse. *)
Theorem extractLinks_reads_only body base s :
  final (extractLinks cfg body base s) = s /\
  (forall s', extractLinks cfg body base s <> More s') /\
  (forall out s',
      extractLinks cfg body base s = Done out s' ->
      Forall (fun u => accept cfg u s = true) out) /\
  (forall s', extractLinks cfg body base s = Panic s' ->
              url_Parse base = None).
Proof.
  destruct (extractLinks_cases body base s) as [E|(out & E & Ha)].
  - rewrite E. cbn [final]. repeat split; try discriminate.
    intros s' _. destruct (url_Parse base) as [b|] eqn:Hb; [|reflexivity].
    rewrite (extractLinks_Some _ _ b _ Hb) in E. discriminate.
  - rewrite E. cbn [final]. repeat split; try discriminate.
    now intros out' s' [= <- <-].
Qed.

(** *** An empty blacklist entry *)

Lemma Contains_empty s : Contains s "" = true.
Proof. apply Contains_spec. now exists "", s. Qed.

Lemma only_roots_without_walks evs :
  (forall u, admissible cfg u = false) ->
  sleepsFollowVisits evs -> Forall (walkAdmissible cfg) evs ->
  Forall isRootFetch evs.
Proof.
  intros Hno Hs. induction Hs as [|site url t ok l Hs IH|url t d l Hs IH];
    intros Ha; [constructor| |].
  - inversion Ha as [|? ? H1 H2]; subst. constructor; [|now apply IH].
    destruct site; [exact I|]. cbn in H1. now rewrite Hno in H1.
  - inversion Ha as [|? ? H1 H2]; subst. cbn in H1. now rewrite Hno in H1.
Qed.

(** X15. An empty string in the blacklist rejects every candidate, since
    every string contains the empty string; a session then never walks:
    all its events are root fetches. *)
Theorem empty_blacklist_entry (Hin : In "" (BlacklistedURLs cfg)) :
  (forall link s, accept cfg link s = false) /\
  (forall fuel ctx s,
   exists evs,
     events (final (Crawl cfg fuel ctx s)) = events s ++ evs /\
     Forall isRootFetch evs).
Proof.
  assert (Hb : forall u, existsb (Contains u) (BlacklistedURLs cfg) = true).
  { intros u. apply existsb_exists. exists "". split; [exact Hin|].
    apply Contains_empty. }
  assert (Hno : forall u, admissible cfg u = false).
  { intros u. unfold admissible. rewrite Hb.
    now destruct (String.eqb u ""). }
  split.
  - intros link s. rewrite accept_split, Hno. reflexivity.
  - intros fuel ctx s. rewrite Crawl_final.
    destruct (Crawl_loop_admissible fuel ctx (set_startTime (clock s) s))
      as (evs & He & Ha & _).
    destruct (Crawl_loop_extends sleepsFollowVisits fuel ctx
                (set_startTime (clock s) s))
      as (evs' & He' & Hs');
      [constructor|apply sleepsFollowVisits_app|apply visitLog_shape
      |apply seedLog_shape|].
    rewrite He in He'. apply app_inv_head in He'. subst evs'.
    exists evs. split; [exact He|].
    now apply only_roots_without_walks.
Qed.

End Proofs.

(** ** The claims on concrete sessions *)

Import Demo.

Lemma visited_test (u : string) (s : State) :
  bool_decide (u ∈ visited s) = true -> u ∈ visited s.
Proof. apply bool_decide_eq_true_1. Qed.

(** The claim of C1 as stated fails: with one root whose page links to
    itself and MaxDepth = 1, after the first iteration the root is in the
    visited set and has been fetched by the walk; the second iteration
    fetches it again. *)
Lemma visited_root_fetched_again :
  let cfg := config 1 0 0 in
  let s1 := final (@Crawl Ref.RefURL Ref.RefHTML webSelf cfg 1 never fresh) in
  let s2 := final (@Crawl Ref.RefURL Ref.RefHTML webSelf cfg 2 never fresh) in
  home ∈ visited s1 /\
  fetches (events s1) = [(Root, home); (Walk, home)] /\
  fetches (events s2) = [(Root, home); (Walk, home); (Root, home)].
Proof.
  cbv zeta. split; [|split]; [|vm_compute; reflexivity..].
  apply visited_test. vm_compute. reflexivity.
Qed.

(** C2 on the code: with a root page that holds two anchors to the same
    URL and MaxDepth = 1, the session reaches a state whose queue holds a
    URL of the visited set; with MaxDepth = 2 the walk fetches that URL
    twice. *)
Theorem queue_holds_visited_url :
  let s1 := final (@Crawl Ref.RefURL Ref.RefHTML webTwice (config 1 0 0)
                          1 never fresh) in
  let s2 := final (@Crawl Ref.RefURL Ref.RefHTML webTwice (config 2 0 0)
                          1 never fresh) in
  links s1 = [pageX] /\ pageX ∈ visited s1 /\
  fetches (events s2) = [(Root, home); (Walk, pageX); (Walk, pageX)].
Proof.
  cbv zeta. split; [|split]; [vm_compute; reflexivity| |vm_compute; reflexivity].
  apply visited_test. vm_compute. reflexivity.
Qed.

(** The claim of C9 as stated fails: with MinSleep = MaxSleep = 10^16
    microseconds the duration in nanoseconds wraps around, and the session
    sleeps for a negative duration, outside the configured range. *)
Lemma long_sleep_out_of_range :
  let cfg := config 1 longSleep longSleep in
  MinSleep cfg <= MaxSleep cfg /\
  events (final (@Crawl Ref.RefURL Ref.RefHTML webTwice cfg 1 never fresh))
  = [EvFetch Root home 0 true; EvFetch Walk pageX 5 true;
     EvSleep (-8446744073709551616)] /\
  ~ sleepInRange cfg (EvSleep (-8446744073709551616)).
Proof.
  cbv zeta. split; [cbn; lia|]. split; [vm_compute; reflexivity|].
  intros (v & Hv & Hd). cbn in Hv. unfold longSleep, Microsecond in *. lia.
Qed.

(** ** The theorems at concrete inputs *)

(** C1 at a concrete session over the self-linking root: the first
    iteration, from the fresh crawler, is a sequence of queue steps that
    leaves the root visited; a walk over the queue that holds the root
    alone is a sequence of steps of a walk; a further iteration does not
    put the root back in the queue; and it fetches the root, visited as
    it is. *)
Lemma visited_not_reenqueued_witness :
  let s1 := final (@Crawl Ref.RefURL Ref.RefHTML webSelf (config 1 0 0)
                          1 never fresh) in
  home ∈ visited s1 /\
  queueSteps fresh s1 /\
  (0 <= 0 /\
   walkSteps (set_links [home] fresh)
     (final (@depthFirst Ref.RefURL Ref.RefHTML webSelf (config 1 0 0)
                         never 0 (set_links [home] fresh)))) /\
  (occurrences home
     (links (final (@Crawl Ref.RefURL Ref.RefHTML webSelf (config 1 0 0)
                           1 never s1)))
   <= occurrences home (links s1))%nat /\
  (RootURLs (config 1 0 0) <> [] /\ UserAgents (config 1 0 0) <> [] /\
   stopAt (config 1 0 0) never (startTime s1) (clock s1) = false /\
   exists root ok rest,
     root ∈ visited s1 /\
     events (final (@Crawl_loop Ref.RefURL Ref.RefHTML webSelf
                                (config 1 0 0) 1 never s1))
     = events s1 ++ EvFetch Root root (clock s1) ok :: rest).
Proof.
  cbv zeta.
  assert (Hin : home ∈ visited
                  (final (@Crawl Ref.RefURL Ref.RefHTML webSelf
                                 (config 1 0 0) 1 never fresh)))
    by (apply visited_test; vm_compute; reflexivity).
  destruct (@visited_not_reenqueued Ref.RefURL Ref.RefHTML webSelf
              (config 1 0 0)) as (_ & Hw & Hc & Hr).
  assert (Hroots : RootURLs (config 1 0 0) <> []) by discriminate.
  assert (Hagents : UserAgents (config 1 0 0) <> []) by discriminate.
  assert (Hstop : stopAt (config 1 0 0) never
                    (startTime (final (@Crawl Ref.RefURL Ref.RefHTML
                                         webSelf (config 1 0 0)
                                         1 never fresh)))
                    (clock (final (@Crawl Ref.RefURL Ref.RefHTML
                                     webSelf (config 1 0 0)
                                     1 never fresh))) = false)
    by (vm_compute; reflexivity).
  split; [exact Hin|].
  split; [exact (proj1 (Hc 1%nat never fresh))|].
  split.
  { split; [lia|]. apply Hw. lia. }
  split.
  { destruct (Hc 1%nat never
                (final (@Crawl Ref.RefURL Ref.RefHTML webSelf
                               (config 1 0 0) 1 never fresh)))
      as [_ [_ Ho]].
    exact (Ho home Hin). }
  split; [exact Hroots|]. split; [exact Hagents|]. split; [exact Hstop|].
  apply (Hr 0%nat never _ Hroots Hagents Hstop).
  intros r [<-|[]]. exact Hin.
Defined.

(** C3 at MaxDepth = 0. *)
Lemma depth_ceiling_witness :
  0 <= MaxDepth (config 0 0 0) /\
  @depthFirst Ref.RefURL Ref.RefHTML webSelf (config 0 0 0) never 0 fresh
  = Done tt fresh /\
  exists evs,
    events (final (@Crawl Ref.RefURL Ref.RefHTML webSelf (config 0 0 0)
                          3 never fresh))
    = events fresh ++ evs /\
    Forall isRootFetch evs.
Proof.
  assert (Hmax : 0 <= MaxDepth (config 0 0 0)) by (cbn; lia).
  split; [exact Hmax|].
  destruct (@depth_ceiling Ref.RefURL Ref.RefHTML webSelf (config 0 0 0) Hmax)
    as [Hc Hs].
  split; [apply Hc; cbn; lia | apply Hs; reflexivity].
Defined.

(** C4 with a context cancelled from the start. *)
Lemma no_fetch_once_stopped_witness :
  let ctx := {| doneAt := Some 0 |} in
  stopAt (config 1 0 0) ctx (startTime fresh) (clock fresh) = true /\
  @Crawl_loop Ref.RefURL Ref.RefHTML webSelf (config 1 0 0) 1 ctx fresh
  = Done tt fresh /\
  @depthFirst Ref.RefURL Ref.RefHTML webSelf (config 1 0 0) ctx 0 fresh
  = Done tt fresh.
Proof.
  cbv zeta.
  assert (Hs : stopAt (config 1 0 0) {| doneAt := Some 0 |}
                      (startTime fresh) (clock fresh) = true)
    by reflexivity.
  split; [exact Hs|].
  destruct (@no_fetch_once_stopped Ref.RefURL Ref.RefHTML webSelf
              (config 1 0 0) {| doneAt := Some 0 |}) as (Hl & Hw & _).
  split; [apply Hl, Hs | apply Hw, Hs].
Defined.

(** C5 on a page of the static web. *)
Lemma fetch_contract_witness :
  UserAgents (config 1 0 0) <> [] /\
  exists body err s',
    @fetch webSelf (config 1 0 0) Root never home fresh
    = Done (body, err) s' /\
    len body <= 2 ^ 20.
Proof.
  assert (Hua : UserAgents (config 1 0 0) <> []) by discriminate.
  split; [exact Hua|].
  destruct (@fetch_contract webSelf (config 1 0 0) Root never home fresh Hua)
    as (body & err & s' & ua & Hf & _ & Hl & _).
  exists body, err, s'. split; [exact Hf|exact Hl].
Defined.

(** C6 on a page that ends in the middle of a tag. *)
Lemma extractLinks_total_witness :
  exists b,
    @url_Parse Ref.RefURL home = Some b /\
    @extractLinks Ref.RefURL Ref.RefHTML (config 1 0 0)
      (list_byte_of_string "<a href=/x>one</a><a hre") home fresh
    = Done (@linksOf Ref.RefURL Ref.RefHTML (config 1 0 0) b fresh
              (list_byte_of_string "<a href=/x>one</a><a hre"))
           fresh.
Proof.
  eexists. split; [reflexivity|].
  apply (@extractLinks_total Ref.RefURL Ref.RefHTML). reflexivity.
Defined.

(** C7 on the empty candidate. *)
Lemma accept_rejects_witness :
  @accept Ref.RefURL (config 1 0 0) "" fresh = false.
Proof.
  destruct (@accept_rejects Ref.RefURL (config 1 0 0) "" fresh) as [Hiff _].
  apply Hiff. left. reflexivity.
Defined.

(** C8 on a scheme-relative href. *)
Lemma normalize_function_witness :
  HasPrefix "//b.example/y" "//" = true /\
  @normalized Ref.RefURL "//b.example/y" Ref.emptyURL
  = Scheme Ref.emptyURL +:+ "://b.example/y".
Proof.
  assert (Hp : HasPrefix "//b.example/y" "//" = true) by reflexivity.
  split; [exact Hp|].
  destruct (@normalize_function Ref.RefURL "//b.example/y" Ref.emptyURL fresh)
    as (_ & Hs & _).
  exact (Hs Hp).
Defined.

(** C9 with sleeps of 10 to 20 microseconds. *)
Lemma jitter_within_bounds_witness :
  let cfg := config 1 10 20 in
  (MinSleep cfg <= MaxSleep cfg /\
   minInt64 <= MinSleep cfg * Microsecond /\
   MaxSleep cfg * Microsecond <= maxInt64) /\
  exists evs,
    events (final (@Crawl Ref.RefURL Ref.RefHTML webTwice cfg 2 never fresh))
    = events fresh ++ evs /\
    Forall (sleepInRange cfg) evs /\
    sleepsFollowVisits evs.
Proof.
  cbv zeta.
  assert (Hle : MinSleep (config 1 10 20) <= MaxSleep (config 1 10 20))
    by (cbn; lia).
  assert (Hmin : minInt64 <= MinSleep (config 1 10 20) * Microsecond)
    by (vm_compute; discriminate).
  assert (Hmax : MaxSleep (config 1 10 20) * Microsecond <= maxInt64)
    by (vm_compute; discriminate).
  split; [repeat split; assumption|].
  destruct (@jitter_within_bounds Ref.RefURL Ref.RefHTML webTwice
              (config 1 10 20) Hle Hmin Hmax) as [Hc _].
  destruct (Hc 2%nat never fresh) as (evs & He & Hr & Hs & _).
  exists evs. repeat split; assumption.
Defined.

(** C10 on the self-linking root. *)
Lemma root_fetch_frame_witness :
  UserAgents (config 1 0 0) <> [] /\
  exists evs,
    events (final (@Crawl Ref.RefURL Ref.RefHTML webSelf (config 1 0 0)
                          2 never fresh))
    = events fresh ++ evs /\
    visited (final (@Crawl Ref.RefURL Ref.RefHTML webSelf (config 1 0 0)
                           2 never fresh))
    = visited fresh ∪ walkTargets evs.
Proof.
  assert (Hua : UserAgents (config 1 0 0) <> []) by discriminate.
  split; [exact Hua|].
  destruct (@root_fetch_frame Ref.RefURL Ref.RefHTML webSelf (config 1 0 0) Hua)
    as (_ & _ & Hc).
  exact (Hc 2%nat never fresh).
Defined.

(** ** The further properties at concrete inputs *)

(** The reference HTTP builds a request only for a URL that parses. *)
Lemma StaticWeb_request pages latency raw req :
  @NewRequest (Ref.StaticWeb pages latency) raw = Some req ->
  is_Some (@url_Parse Ref.RefURL raw).
Proof.
  cbn [NewRequest Ref.StaticWeb url_Parse Ref.RefURL].
  destruct (Ref.parse raw false); [eauto|discriminate].
Qed.

(** X3 with a context cancelled at time 12: the session returns, at a
    guard that fires. *)
Lemma Crawl_returns_only_stopped_witness :
  let ctx := {| doneAt := Some 12 |} in
  let s' := final (@Crawl Ref.RefURL Ref.RefHTML webSelf (config 1 0 0)
                          5 ctx fresh) in
  @Crawl Ref.RefURL Ref.RefHTML webSelf (config 1 0 0) 5 ctx fresh
  = Done tt s' /\
  stopAt (config 1 0 0) ctx (startTime s') (clock s') = true.
Proof.
  cbv zeta.
  assert (Hd : @Crawl Ref.RefURL Ref.RefHTML webSelf (config 1 0 0) 5
                      {| doneAt := Some 12 |} fresh
               = Done tt (final (@Crawl Ref.RefURL Ref.RefHTML webSelf
                                        (config 1 0 0) 5
                                        {| doneAt := Some 12 |} fresh)))
    by (vm_compute; reflexivity).
  split; [exact Hd|].
  destruct (@Crawl_returns_only_stopped Ref.RefURL Ref.RefHTML webSelf
              (config 1 0 0) 5 {| doneAt := Some 12 |} fresh) as [Hs _].
  exact (Hs _ Hd).
Defined.

(** X4 on the web with two anchors. *)
Lemma valid_config_no_panic_witness :
  @Crawl Ref.RefURL Ref.RefHTML webTwice (config 2 10 20) 3 never fresh
  <> Panic fresh.
Proof.
  assert (Hroots : RootURLs (config 2 10 20) <> []) by discriminate.
  assert (Hua : UserAgents (config 2 10 20) <> []) by discriminate.
  assert (Hspan : 0 < wrap64 (wrap64 (MaxSleep (config 2 10 20)
                                      - MinSleep (config 2 10 20)) + 1))
    by reflexivity.
  destruct (@valid_config_no_panic Ref.RefURL Ref.RefHTML webTwice
              (config 2 10 20) Hroots Hua Hspan
              (StaticWeb_request _ _) 3%nat never 0 fresh fresh)
    as [Hc _].
  exact Hc.
Defined.

(** X5 with no root URL. *)
Lemma empty_roots_panic_witness :
  let cfg := {| RootURLs := []; UserAgents := ["agent"];
                BlacklistedURLs := []; MaxDepth := 1; Timeout := 0;
                MinSleep := 0; MaxSleep := 0 |} in
  @Crawl Ref.RefURL Ref.RefHTML webSelf cfg 1 never fresh
  = Panic (set_startTime (clock fresh) fresh).
Proof.
  cbv zeta.
  apply (@empty_roots_panic Ref.RefURL Ref.RefHTML webSelf); reflexivity.
Defined.

(** X6 with no user agent: the fetch of a URL whose request can be built
    panics, in the unchanged state. *)
Lemma fetch_panics_iff_witness :
  let cfg := {| RootURLs := [home]; UserAgents := [];
                BlacklistedURLs := []; MaxDepth := 1; Timeout := 0;
                MinSleep := 0; MaxSleep := 0 |} in
  @fetch webSelf cfg Root never home fresh = Panic fresh.
Proof.
  cbv zeta.
  destruct (@fetch_panics_iff webSelf
              {| RootURLs := [home]; UserAgents := [];
                 BlacklistedURLs := []; MaxDepth := 1; Timeout := 0;
                 MinSleep := 0; MaxSleep := 0 |} Root never home fresh)
    as ([_ Hp] & Hs & _).
  destruct Hp as [s' E]; [split; [reflexivity|eexists; reflexivity]|].
  rewrite E. f_equal. exact (Hs s' E).
Defined.

(** X7 with MinSleep = 5 and MaxSleep = 3. *)
Lemma inverted_sleep_bounds_panic_witness :
  @jitter (config 1 5 3) fresh = Panic fresh.
Proof.
  assert (Hlt : MaxSleep (config 1 5 3) < MinSleep (config 1 5 3))
    by reflexivity.
  assert (Hfit : minInt64 <= MaxSleep (config 1 5 3) - MinSleep (config 1 5 3))
    by (vm_compute; discriminate).
  destruct (@inverted_sleep_bounds_panic Ref.RefURL Ref.RefHTML webSelf
              (config 1 5 3) Hlt Hfit) as [Hj _].
  exact (Hj fresh).
Defined.

(** X8 from a fresh crawler, whose queue is empty. *)
Lemma fetched_urls_witness :
  exists evs,
    events (final (@depthFirst Ref.RefURL Ref.RefHTML webTwice (config 2 0 0)
                               never 0 fresh))
    = events fresh ++ evs /\
    Forall (@walkAdmissible Ref.RefURL (config 2 0 0)) evs.
Proof.
  destruct (@fetched_urls Ref.RefURL Ref.RefHTML webTwice (config 2 0 0))
    as [Hw _].
  apply Hw. constructor.
Defined.

(** X9 on the web with two anchors. *)
Lemma walk_starts_clean_witness :
  let s1 := final (@seed Ref.RefURL Ref.RefHTML webTwice (config 1 0 0)
                         never fresh) in
  @seed Ref.RefURL Ref.RefHTML webTwice (config 1 0 0) never fresh
  = Done true s1 /\
  links s1 <> [].
Proof.
  cbv zeta.
  assert (Hs : @seed Ref.RefURL Ref.RefHTML webTwice (config 1 0 0)
                     never fresh
               = Done true (final (@seed Ref.RefURL Ref.RefHTML webTwice
                                         (config 1 0 0) never fresh)))
    by (vm_compute; reflexivity).
  split; [exact Hs|].
  destruct (@walk_starts_clean Ref.RefURL Ref.RefHTML webTwice
              (config 1 0 0) never fresh _ Hs) as [Hne _].
  exact Hne.
Defined.

(** X10: a URL accepted after a session was accepted before it. *)
Lemma rejection_is_final_witness :
  @accept Ref.RefURL (config 1 0 0) pageX
    (final (@Crawl Ref.RefURL Ref.RefHTML webSelf (config 1 0 0)
                   2 never fresh))
  = true /\
  @accept Ref.RefURL (config 1 0 0) pageX fresh = true.
Proof.
  assert (Ha : @accept Ref.RefURL (config 1 0 0) pageX
                 (final (@Crawl Ref.RefURL Ref.RefHTML webSelf (config 1 0 0)
                                2 never fresh))
               = true)
    by (vm_compute; reflexivity).
  split; [exact Ha|].
  destruct (@rejection_is_final Ref.RefURL Ref.RefHTML webSelf
              (config 1 0 0) pageX) as [_ Hc].
  exact (Hc 2%nat never fresh Ha).
Defined.

(** X11 with Timeout = -1, and with a Timeout of 9223372037 seconds,
    whose nanoseconds wrap around. *)
Lemma negative_timeout_stops_at_once_witness :
  let cfg t := {| RootURLs := [home]; UserAgents := ["agent"];
                  BlacklistedURLs := []; MaxDepth := 1; Timeout := t;
                  MinSleep := 0; MaxSleep := 0 |} in
  @Crawl Ref.RefURL Ref.RefHTML webSelf (cfg (-1)) 1 never fresh
  = Done tt (set_startTime (clock fresh) fresh) /\
  @Crawl Ref.RefURL Ref.RefHTML webSelf (cfg 9223372037) 1 never fresh
  = Done tt (set_startTime (clock fresh) fresh).
Proof.
  cbv zeta. split;
    apply (@negative_timeout_stops_at_once Ref.RefURL Ref.RefHTML webSelf);
    [discriminate|reflexivity|discriminate|reflexivity].
Defined.

(** X14 on a page that ends in the middle of a tag. *)
Lemma extractLinks_reads_only_witness :
  final (@extractLinks Ref.RefURL Ref.RefHTML (config 1 0 0)
           (list_byte_of_string "<a href=/x>one</a><a hre") home fresh)
  = fresh.
Proof.
  destruct (@extractLinks_reads_only Ref.RefURL Ref.RefHTML (config 1 0 0)
              (list_byte_of_string "<a href=/x>one</a><a hre") home fresh)
    as [Hf _].
  exact Hf.
Defined.

(** X15 with a blacklist that holds the empty string. *)
Lemma empty_blacklist_entry_witness :
  let cfg := {| RootURLs := [home]; UserAgents := ["agent"];
                BlacklistedURLs := ["ads"; ""]; MaxDepth := 3; Timeout := 0;
                MinSleep := 0; MaxSleep := 0 |} in
  In "" (BlacklistedURLs cfg) /\
  @accept Ref.RefURL cfg pageX fresh = false /\
  exists evs,
    events (final (@Crawl Ref.RefURL Ref.RefHTML webTwice cfg 2 never fresh))
    = events fresh ++ evs /\
    Forall isRootFetch evs.
Proof.
  cbv zeta.
  set (cfg := {| RootURLs := [home]; UserAgents := ["agent"];
                 BlacklistedURLs := ["ads"; ""]; MaxDepth := 3;
                 Timeout := 0; MinSleep := 0; MaxSleep := 0 |}).
  assert (Hin : In "" (BlacklistedURLs cfg)) by (right; left; reflexivity).
  split; [exact Hin|].
  destruct (@empty_blacklist_entry Ref.RefURL Ref.RefHTML webTwice cfg Hin)
    as [Ha Hc].
  split; [apply Ha|apply Hc].
Defined.

(** ** The logger of the command *)

(** X12. setLogLevel replaces the flags and the prefix whatever they
    were, so the last call wins; the flags always include date and time,
    and the short file name exactly when the level, in lower case, is
    debug or error; the prefix is a colour, a label and the reset
    sequence; and every level other than debug, warn, warning and error
    gives the settings of info. *)
Theorem setLogLevel_settings (ToLower : string -> string) level lg :
  let r := setLogLevel ToLower level lg in
  (forall level' lg',
      setLogLevel ToLower level (setLogLevel ToLower level' lg') = r) /\
  Z.land (logFlags r) (Z.lor Ldate Ltime) = Z.lor Ldate Ltime /\
  (Z.land (logFlags r) Lshortfile = Lshortfile <->
   ToLower level = "debug" \/ ToLower level = "error") /\
  (exists colour label,
      In colour [RED; GREEN; YELLOW; BLUE] /\
      logPrefix r = colour +:+ label +:+ RESET) /\
  (ToLower level <> "debug" -> ToLower level <> "warn" ->
   ToLower level <> "warning" -> ToLower level <> "error" ->
   r = {| logFlags := Z.lor Ldate Ltime;
          logPrefix := GREEN +:+ "INFO: " +:+ RESET |}).
Proof.
  cbv zeta. unfold setLogLevel.
  destruct (String.eqb_spec (ToLower level) "debug") as [Ed|Hd];
    [|destruct (String.eqb_spec (ToLower level) "info") as [Ei|Hi];
      [|destruct (String.eqb_spec (ToLower level) "warn") as [Ew|Hw];
        [|destruct (String.eqb_spec (ToLower level) "warning") as [Ew|Hw'];
          [|destruct (String.eqb_spec (ToLower level) "error") as [Ee|He]]]]];
    cbn [orb];
    (split; [reflexivity|]);
    (split; [reflexivity|]);
    (split; [split; [intros Hs; try (now left); try (now right);
                     exfalso; revert Hs; cbn; discriminate
                    |intros [?|?]; try congruence; reflexivity]|]);
    (split; [|intros; try congruence; reflexivity]).
  - exists BLUE, "DEBUG: ". split; [cbn [In]; intuition reflexivity|reflexivity].
  - exists GREEN, "INFO: ". split; [cbn [In]; intuition reflexivity|reflexivity].
  - exists YELLOW, "WARNING: ". split; [cbn [In]; intuition reflexivity|reflexivity].
  - exists YELLOW, "WARNING: ". split; [cbn [In]; intuition reflexivity|reflexivity].
  - exists RED, "ERROR: ". split; [cbn [In]; intuition reflexivity|reflexivity].
  - exists GREEN, "INFO: ". split; [cbn [In]; intuition reflexivity|reflexivity].
Qed.

(** X12 with the level DEBUG in upper case and the lower-casing of ASCII
    letters: the short file name is among the flags. *)
Lemma setLogLevel_settings_witness :
  let lg := {| logFlags := 0; logPrefix := "" |} in
  Ref.ToLower "DEBUG" = "debug" /\
  Z.land (logFlags (setLogLevel Ref.ToLower "DEBUG" lg)) Lshortfile
  = Lshortfile.
Proof.
  cbv zeta.
  assert (Hl : Ref.ToLower "DEBUG" = "debug") by reflexivity.
  split; [exact Hl|].
  destruct (setLogLevel_settings Ref.ToLower "DEBUG"
              {| logFlags := 0; logPrefix := "" |})
    as (_ & _ & [_ Hs] & _).
  apply Hs. left. exact Hl.
Defined.
